(** * pgn-to-gif: a shallow embedding of [pgn_to_gif/utils.py],
      [pgn_to_gif/cli.py] and [main.py]

    The repository is an orchestration script around three libraries
    (python-chess, cairosvg, imageio).  The libraries are interfaces here
    (type classes); the code of the repository is embedded over them as
    programs of a state-and-exception monad on a [World] made of a file
    system, the anonymous temporary files and a trace of the calls made to
    the outside. *)

From stdpp Require Import gmap strings list.
From Stdlib Require Import ZArith Ascii.

Open Scope string_scope.
Open Scope list_scope.

(** ** Python exceptions *)

Inductive Exn :=
| ValueError (msg : string)
| AssertionError (msg : string)
| AttributeError (msg : string)
| FileNotFoundError
| FileExistsError
| NotADirectoryError
| IsADirectoryError
| SystemExit (code : Z)
| LibraryError (tag : string).

Inductive Result (A : Type) :=
| Ok (a : A)
| Raise (e : Exn).
Arguments Ok {A} a.
Arguments Raise {A} e.

Definition is_ok {A} (r : Result A) : bool :=
  match r with Ok _ => true | Raise _ => false end.

(** The spec's error kinds (section 7), as the Python exceptions that carry
    them: InvalidArgument is a [ValueError] or a failed [assert]. *)
Definition invalid_argument_kind (e : Exn) : bool :=
  match e with
  | ValueError _ | AssertionError _ => true
  | _ => false
  end.

(** ** python-chess: rules, moves and the game tree *)

Inductive Color := WHITE | BLACK.

(** What the code uses of [chess.Board] and [chess.Move]: the standard
    starting position [chess.Board()] and [board.push(move)]. *)
Class ChessRules := {
  Board : Type;
  Move : Type;
  chess_Board : Board;
  push : Board → Move → Board;
}.

Set Warnings "-register-all".

Section GameTree.
Context `{ChessRules}.

(** A [chess.pgn.ChildNode]: the move that leads to it and its variations,
    the first of which continues the mainline. *)
Inductive ChildNode :=
| mkChild (move : Move) (variations : list ChildNode).

Definition move (n : ChildNode) : Move :=
  match n with mkChild m _ => m end.

Definition variations (n : ChildNode) : list ChildNode :=
  match n with mkChild _ vs => vs end.

(** A [chess.pgn.Game], the root of the tree: [game.board()] is the position
    the headers set up (the standard one unless a FEN header is given). *)
Record Game := {
  game_board : Board;
  game_variations : list ChildNode;
}.

(** A node as the iteration hands it out: the node, with its parent chain
    (the moves of its parent, grandparent, ... up to the root excluded) and
    the root, which Python reaches through [node.parent]. *)
Record GameNode := {
  root : Game;
  ancestors : list Move;
  node : ChildNode;
}.

(** [chess.pgn.Mainline.__iter__]:
    [node = start; while node.variations: node = node.variations[0]; yield f(node)] *)
Fixpoint Mainline_from {T} (g : Game) (f : GameNode → T)
    (up : list Move) (n : ChildNode) : list T :=
  match n with
  | mkChild m vs =>
      f {| root := g; ancestors := up; node := n |} ::
      match vs with
      | [] => []
      | c :: _ => Mainline_from g f (m :: up) c
      end
  end.

Definition Mainline {T} (g : Game) (f : GameNode → T) : list T :=
  match game_variations g with
  | [] => []
  | c :: _ => Mainline_from g f [] c
  end.

Definition mainline (g : Game) : list GameNode := Mainline g id.

Definition mainline_moves (g : Game) : list Move :=
  Mainline g (λ n, move (node n)).

(** [ChildNode.board()]: walk up to the root stacking the moves, start from
    [game.board()] and push the stack from its far end. *)
Definition node_board (n : GameNode) : Board :=
  let stack := move (node n) :: ancestors n in
  fold_left push (rev stack) (game_board (root n)).

(** The board re-derived from a move list alone. *)
Definition replay (start : Board) (moves : list Move) : Board :=
  fold_left push moves start.

End GameTree.

(** ** The libraries behind the pipeline

    chess.pgn (the parser), chess.svg, cairosvg and imageio.  The parser
    returns a game or Python's [None] (end of input); it records syntax
    errors on the game and does not raise.  The renderer is a pure function.
    The rasterizer, the image decoder and the GIF writer may raise. *)

Record WriterOpts (float : Type) := {
  opt_loop : Z;
  opt_duration : option float;
  opt_fps : option float;
  opt_palettesize : Z;
  opt_subrectangles : bool;
}.
Arguments opt_loop {float} _.
Arguments opt_duration {float} _.
Arguments opt_fps {float} _.
Arguments opt_palettesize {float} _.
Arguments opt_subrectangles {float} _.

Class Libraries `{ChessRules} := {
  float : Type;
  Svg : Type;
  Png : Type;
  Image : Type;
  (* chess.pgn.read_game(StringIO(pgn)) *)
  read_game : string → option Game;
  (* chess.svg.board(board, orientation=, lastmove=, size=, coordinates=, style=) *)
  chess_svg_board : Board → Color → option Move → Z → bool → option string → Svg;
  (* cairosvg.svg2png(bytestring=svg) *)
  svg2png : Svg → Result Png;
  (* imageio.imread(png) *)
  imread : Png → Result Image;
  (* imageio.get_writer(file, mode="I", format="gif", ...): checks its options *)
  writer_open : WriterOpts float → Result unit;
  (* leaving the writer: the bytes it has put into its sink, or an error *)
  writer_close : WriterOpts float → list Image → Result string;
}.

(** ** The world *)

(** A path is the list of its components below the working directory;
    [Path(p).parent] drops the last one. *)
Definition Path := list string.

Definition parent (p : Path) : Path := removelast p.

Inductive FsNode :=
| Dir
| File (content : string).

(** An anonymous temporary file ([tempfile.TemporaryFile()]). *)
Record TempFile := {
  content : string;
  position : nat;
  closed : bool;
}.

Section Pipeline.
Context `{Libraries}.

(** Calls that leave the program, in the order they are made. *)
Inductive Event :=
| EvTemporaryFile (h : nat)
| EvGetWriter (h : nat) (opts : WriterOpts float)
| EvBoardToSvg (board : Board) (orientation : Color) (last_move : option Move)
    (size : Z) (coordinates : bool) (style : option string)
| EvSvg2Png (svg : Svg)
| EvImread (png : Png)
| EvAppendData (im : Image)
| EvWriterClose (h : nat)
| EvReadFile (p : Path)
| EvMkdir (p : Path)
| EvOpenWrite (p : Path)
| EvTempClose (h : nat).

(** An open [imageio] writer: its sink, its options, the frames appended. *)
Record Writer := {
  sink : nat;
  writer_opts : WriterOpts float;
  frames : list Image;
}.

Record World := {
  fs : gmap Path FsNode;
  temps : list TempFile;
  writers : list Writer;
  trace : list Event;
}.

Definition set_fs (f : gmap Path FsNode) (w : World) : World :=
  {| fs := f; temps := temps w; writers := writers w; trace := trace w |}.

Definition set_temps (t : list TempFile) (w : World) : World :=
  {| fs := fs w; temps := t; writers := writers w; trace := trace w |}.

Definition set_writers (ws : list Writer) (w : World) : World :=
  {| fs := fs w; temps := temps w; writers := ws; trace := trace w |}.

Definition add_trace (evs : list Event) (w : World) : World :=
  {| fs := fs w; temps := temps w; writers := writers w; trace := trace w ++ evs |}.

(** ** State and exceptions *)

Definition M (A : Type) : Type := World → Result A * World.

#[export] Instance M_ret : MRet M := λ A a w, (Ok a, w).

#[export] Instance M_bind : MBind M := λ A B f m w,
  match m w with
  | (Ok a, w') => f a w'
  | (Raise e, w') => (Raise e, w')
  end.

Definition raise {A} (e : Exn) : M A := λ w, (Raise e, w).

Definition lift {A} (r : Result A) : M A := λ w, (r, w).

Definition get : M World := λ w, (Ok w, w).

Definition modify (f : World → World) : M unit := λ w, (Ok tt, f w).

Definition log (ev : Event) : M unit := modify (add_trace [ev]).

(** [try: body finally: handler], which is what leaving a [with] block does;
    an exception of the handler replaces the one of the body. *)
Definition finally {A} (body : M A) (handler : M unit) : M A := λ w,
  match body w with
  | (r, w1) =>
      match handler w1 with
      | (Ok _, w2) => (r, w2)
      | (Raise e, w2) => (Raise e, w2)
      end
  end.

(** A generator: the computations that produce its items, run one at a time
    by whoever iterates; one that raises ends the iteration. *)
Definition Gen (A : Type) : Type := list (M A).

(** [(f(x) for x in g)] *)
Definition gen_map {A B} (f : A → M B) (g : Gen A) : Gen B :=
  (λ next, x ← next; f x) <$> g.

(** [list(g)] *)
Fixpoint gen_to_list {A} (g : Gen A) : M (list A) :=
  match g with
  | [] => mret []
  | next :: rest => x ← next; xs ← gen_to_list rest; mret (x :: xs)
  end.

(** [[body(x) for x in g]], the result list dropped *)
Fixpoint for_each {A} (g : Gen A) (body : A → M unit) : M unit :=
  match g with
  | [] => mret tt
  | next :: rest => x ← next; body x;; for_each rest body
  end.

(** ** The file system and the temporary files *)

(** The working directory always exists. *)
Definition node_at (f : gmap Path FsNode) (p : Path) : option FsNode :=
  match p with
  | [] => Some Dir
  | _ => f !! p
  end.

Definition is_dir (f : gmap Path FsNode) (p : Path) : bool :=
  match node_at f p with Some Dir => true | _ => false end.

(** [os.mkdir(p)] *)
Definition os_mkdir (p : Path) : M unit :=
  w ← get;
  match node_at (fs w) p with
  | Some _ => raise FileExistsError
  | None =>
      match node_at (fs w) (parent p) with
      | None => raise FileNotFoundError
      | Some (File _) => raise NotADirectoryError
      | Some Dir => modify (set_fs (<[p := Dir]> (fs w)))
      end
  end.

(** [Path.mkdir(parents=, exist_ok=)] of pathlib, on the path given with
    its last component first, so that [parent] is the tail:
    [try: os.mkdir(self)]
    [except FileNotFoundError: if not parents or self.parent == self: raise;]
    [  self.parent.mkdir(parents=True, exist_ok=True); self.mkdir(parents=False, exist_ok=exist_ok)]
    [except OSError: if not exist_ok or not self.is_dir(): raise] *)
Definition mkdir_leaf (p : Path) (exist_ok : bool) : M unit := λ w,
  match os_mkdir p w with
  | (Ok _, w1) => (Ok tt, w1)
  | (Raise FileNotFoundError, w1) => (Raise FileNotFoundError, w1)
  | (Raise e, w1) =>
      if exist_ok && is_dir (fs w1) p then (Ok tt, w1) else (Raise e, w1)
  end.

Fixpoint mkdir_rev (rp : list string) (parents exist_ok : bool) : M unit := λ w,
  match os_mkdir (rev rp) w with
  | (Ok _, w1) => (Ok tt, w1)
  | (Raise FileNotFoundError, w1) =>
      match rp with
      | [] => (Raise FileNotFoundError, w1)
      | _ :: rparent =>
          if parents
          then (mkdir_rev rparent true true;; mkdir_leaf (rev rp) exist_ok) w1
          else (Raise FileNotFoundError, w1)
      end
  | (Raise e, w1) =>
      if exist_ok && is_dir (fs w1) (rev rp) then (Ok tt, w1) else (Raise e, w1)
  end.

Definition mkdir (p : Path) (parents exist_ok : bool) : M unit :=
  log (EvMkdir p);; mkdir_rev (rev p) parents exist_ok.

(** [open(path, mode="wb+")]: creates or truncates the file. *)
Definition open_wb (p : Path) : M Path :=
  log (EvOpenWrite p);;
  w ← get;
  match node_at (fs w) p with
  | Some Dir => raise IsADirectoryError
  | Some (File _) => modify (set_fs (<[p := File ""]> (fs w)));; mret p
  | None =>
      match node_at (fs w) (parent p) with
      | None => raise FileNotFoundError
      | Some (File _) => raise NotADirectoryError
      | Some Dir => modify (set_fs (<[p := File ""]> (fs w)));; mret p
      end
  end.

(** [f.write(data)] on a file just opened by [open_wb] *)
Definition file_write (f : Path) (data : string) : M unit :=
  w ← get; modify (set_fs (<[f := File data]> (fs w))).

(** [open(path, mode="r")] and [f.read()] *)
Definition open_read (p : Path) : M string :=
  log (EvReadFile p);;
  w ← get;
  match node_at (fs w) p with
  | Some (File text) => mret text
  | Some Dir => raise IsADirectoryError
  | None => raise FileNotFoundError
  end.

Definition closed_file : Exn := ValueError "I/O operation on closed file".

(** The temporary file behind a handle, if it is open. *)
Definition open_temp (h : nat) : M TempFile :=
  w ← get;
  match temps w !! h with
  | Some t => if closed t then raise closed_file else mret t
  | None => raise closed_file
  end.

Definition TemporaryFile : M nat :=
  w ← get;
  let h := length (temps w) in
  modify (set_temps (temps w ++ [{| content := ""; position := 0; closed := false |}]));;
  log (EvTemporaryFile h);;
  mret h.

Definition temp_put (h : nat) (t : TempFile) : M unit :=
  w ← get; modify (set_temps (<[h := t]> (temps w))).

(** [temp_file.seek(pos)] *)
Definition temp_seek (h : nat) (pos : nat) : M unit :=
  t ← open_temp h;
  temp_put h {| content := content t; position := pos; closed := false |}.

(** [temp_file.read()]: everything from the position on. *)
Definition temp_read (h : nat) : M string :=
  t ← open_temp h;
  let n := String.length (content t) in
  temp_put h {| content := content t; position := Nat.max (position t) n; closed := false |};;
  mret (String.substring (position t) (n - position t) (content t)).

(** What a writer puts into a fresh sink when it is left. *)
Definition temp_write (h : nat) (data : string) : M unit :=
  t ← open_temp h;
  temp_put h {| content := data; position := String.length data; closed := false |}.

(** [temp_file.close()]; closing a closed file does nothing. *)
Definition temp_close (h : nat) : M unit :=
  log (EvTempClose h);;
  w ← get;
  match temps w !! h with
  | Some t => temp_put h {| content := content t; position := position t; closed := true |}
  | None => mret tt
  end.

(** ** imageio's writer *)

Definition get_writer (temp_file : nat) (opts : WriterOpts float) : M nat :=
  log (EvGetWriter temp_file opts);;
  lift (writer_open opts);;
  w ← get;
  modify (set_writers (writers w ++ [{| sink := temp_file; writer_opts := opts; frames := [] |}]));;
  mret (length (writers w)).

Definition append_frame (im : Image) (wr : Writer) : Writer :=
  {| sink := sink wr; writer_opts := writer_opts wr; frames := frames wr ++ [im] |}.

Definition append_data (writer : nat) (im : Image) : M unit :=
  log (EvAppendData im);;
  w ← get; modify (set_writers (alter (append_frame im) writer (writers w))).

(** [writer.__exit__]: encodes what was appended into the sink. *)
Definition writer_exit (writer : nat) : M unit :=
  w ← get;
  match writers w !! writer with
  | Some wr =>
      log (EvWriterClose (sink wr));;
      data ← lift (writer_close (writer_opts wr) (frames wr));
      temp_write (sink wr) data
  | None => mret tt
  end.

Definition imageio_imread (png : Png) : M Image :=
  log (EvImread png);; lift (imread png).

(** ** pgn_to_gif/utils.py *)

Definition read_file (path : Path) : M string := open_read path.

Definition read_pgn := read_file.
Definition read_css := read_file.

(** [pgn_to_game]: whatever [chess.pgn.read_game] returns, [None] included. *)
Definition pgn_to_game (pgn : string) : M (option Game) :=
  mret (read_game pgn).

(** [game_to_boards_and_last_moves].  Nothing of the body runs before the
    first item is asked for; [game.mainline_moves()] is evaluated after the
    initial position has been yielded, and raises on [None]. *)
Definition game_to_boards_and_last_moves (game : option Game)
    (add_initial_position : bool) : Gen (Board * option Move) :=
  (if add_initial_position then [mret (chess_Board, None)] else []) ++
  match game with
  | None => [raise (AttributeError "'NoneType' object has no attribute 'mainline_moves'")]
  | Some g =>
      (λ '(move, game_node), mret (node_board game_node, Some move))
        <$> zip (mainline_moves g) (mainline g)
  end.

(** [board_to_svg]; [size] is an [int] by its type.  The call is recorded
    with its arguments as it is entered. *)
Definition board_to_svg (board : Board) (orientation : Color)
    (last_move : option Move) (size : Z) (coordinates : bool)
    (style : option string) : M Svg :=
  log (EvBoardToSvg board orientation last_move size coordinates style);;
  if bool_decide (size > 0)%Z
  then mret (chess_svg_board board orientation last_move size coordinates style)
  else raise (AssertionError "size of the board must be positive integer").

Definition svg_to_png (board_svg : Svg) : M Png :=
  log (EvSvg2Png board_svg);; lift (svg2png board_svg).

Definition pngs_to_gif (pngs : Gen Png) (loop : Z) (duration fps : option float)
    (palettesize : Z) (subrectangles : bool) : M nat :=
  if bool_decide (duration = None ∧ fps = None)
  then raise (ValueError "duration and fps cannot be None at the same time")
  else
    temp_file ← TemporaryFile;
    writer ← get_writer temp_file
      {| opt_loop := loop; opt_duration := duration; opt_fps := fps;
         opt_palettesize := palettesize; opt_subrectangles := subrectangles |};
    finally
      (for_each pngs (λ png, im ← imageio_imread png; append_data writer im))
      (writer_exit writer);;
    mret temp_file.

Definition save_gif_temp_file (temp_file : nat) (path : Path) : M unit :=
  mkdir (parent path) true true;;
  temp_seek temp_file 0;;
  f ← open_wb path;
  data ← temp_read temp_file;
  file_write f data;;
  temp_close temp_file.

Definition game_to_gif (game : option Game) (gif_path : option Path)
    (add_initial_position highlight_last_move : bool) (orientation : Color)
    (size : Z) (coordinates : bool) (style : option string) (loop : Z)
    (duration fps : option float) (palettesize : Z) (subrectangles : bool)
    : M (option nat) :=
  let boards_and_last_moves :=
    game_to_boards_and_last_moves game add_initial_position in
  let svgs :=
    gen_map (λ '(board, last_move),
      board_to_svg board orientation
        (if highlight_last_move then last_move else None)
        size coordinates style) boards_and_last_moves in
  let pngs := gen_map svg_to_png svgs in
  gif_temp_file ← pngs_to_gif pngs loop duration fps palettesize subrectangles;
  match gif_path with
  | Some path => save_gif_temp_file gif_temp_file path;; mret None
  | None => mret (Some gif_temp_file)
  end.

Definition pgn_to_gif (pgn : string) (gif_path : option Path)
    (add_initial_position highlight_last_move : bool) (orientation : Color)
    (size : Z) (coordinates : bool) (style : option string) (loop : Z)
    (duration fps : option float) (palettesize : Z) (subrectangles : bool)
    : M (option nat) :=
  game ← pgn_to_game pgn;
  game_to_gif game gif_path add_initial_position highlight_last_move
    orientation size coordinates style loop duration fps palettesize
    subrectangles.

(** ** pgn_to_gif/cli.py and main.py *)

(** [str.lower()] on the ASCII letters; no other character lowers to one of
    the letters or digits of the tokens below but the Kelvin sign, to [k]. *)
Definition lower_ascii (c : ascii) : ascii :=
  let n := nat_of_ascii c in
  if (65 <=? n)%nat && (n <=? 90)%nat then ascii_of_nat (n + 32) else c.

Fixpoint lower (s : string) : string :=
  match s with
  | EmptyString => EmptyString
  | String c rest => String (lower_ascii c) (lower rest)
  end.

(** [repr(s)] of a text without quotes or escapes. *)
Definition repr (s : string) : string := "'" +:+ s +:+ "'".

Definition parse_orientation (orientation : string) : M Color :=
  if bool_decide (orientation = "white") then mret WHITE
  else if bool_decide (orientation = "black") then mret BLACK
  else raise (ValueError ("unknown orientation=" +:+ repr orientation)).

Definition true_values : list string := ["1"; "t"; "true"].
Definition false_values : list string := ["0"; "f"; "false"].

Definition parse_bool (bool_str : string) : M bool :=
  if bool_decide (lower bool_str ∈ true_values) then mret true
  else if bool_decide (lower bool_str ∈ false_values) then mret false
  else raise (ValueError ("cannot parse to bool, " +:+ bool_str)).

(** [bool(s)] of a [str]: its length is not zero. *)
Definition py_bool (s : string) : bool :=
  negb (bool_decide (s = "")).

(** argparse, [add_argument(default=d, choices=cs)]: a value given on the
    command line is checked against [cs] as it is; [parser.error] exits
    with status 2. *)
Definition argparse_choices (default : string) (choices : list string)
    (given : option string) : M string :=
  match given with
  | None => mret default
  | Some s => if bool_decide (s ∈ choices) then mret s else raise (SystemExit 2)
  end.

(** argparse, [add_argument(default=True, type=bool)]: [type] is applied to
    a value given on the command line. *)
Definition argparse_type_bool (default : bool) (given : option string) : bool :=
  match given with
  | None => default
  | Some s => py_bool s
  end.

Definition bool_choices : list string := ["1"; "t"; "true"; "0"; "f"; "false"].

(** The command line of [pgn_to_gif/cli.py], by the destination of each
    argument: its paths and numbers already converted and defaulted, its
    flags and the orientation as given ([None]: not given). *)
Record Argv := {
  arg_pgn_path : Path;
  arg_gif_path : Path;
  arg_add_initial_position : option string;
  arg_highlight_last_move : option string;
  arg_orientation : option string;
  arg_size : Z;
  arg_coordinates : option string;
  arg_css_path : option Path;
  arg_loop : Z;
  arg_duration : float;
  arg_fps : float;
  arg_palettesize : Z;
  arg_subrectangles : option string;
}.

(** One boolean flag of [pgn_to_gif/cli.py], from the command line to the
    value passed on. *)
Definition cli_flag (given : option string) : M bool :=
  s ← argparse_choices "true" bool_choices given;
  parse_bool s.

(** One boolean flag of [main.py]. *)
Definition main_flag (given : option string) : bool :=
  argparse_type_bool true given.

(** [pgn_to_gif/cli.py], [main] *)
Definition cli_main (argv : Argv) : M unit :=
  a_add_initial_position ← argparse_choices "true" bool_choices (arg_add_initial_position argv);
  a_highlight_last_move ← argparse_choices "true" bool_choices (arg_highlight_last_move argv);
  a_orientation ← argparse_choices "white" ["white"; "black"] (arg_orientation argv);
  a_coordinates ← argparse_choices "true" bool_choices (arg_coordinates argv);
  a_subrectangles ← argparse_choices "true" bool_choices (arg_subrectangles argv);
  pgn ← read_pgn (arg_pgn_path argv);
  style ← match arg_css_path argv with
          | None => mret None
          | Some p => text ← read_css p; mret (Some text)
          end;
  orientation ← parse_orientation a_orientation;
  add_initial_position ← parse_bool a_add_initial_position;
  highlight_last_move ← parse_bool a_highlight_last_move;
  coordinates ← parse_bool a_coordinates;
  subrectangles ← parse_bool a_subrectangles;
  pgn_to_gif pgn (Some (arg_gif_path argv)) add_initial_position
    highlight_last_move orientation (arg_size argv) coordinates style
    (arg_loop argv) (Some (arg_duration argv)) (Some (arg_fps argv))
    (arg_palettesize argv) subrectangles;;
  mret tt.

(** The status the process ends with: an exception that nothing catches
    ends it with 1, [SystemExit] with its code. *)
Definition exit_status {A} (r : Result A) : Z :=
  match r with
  | Ok _ => 0
  | Raise (SystemExit code) => code
  | Raise _ => 1
  end.

(** ** Reading the trace *)

(** The last-move argument of each call to the board renderer. *)
Definition render_last_moves (evs : list Event) : list (option Move) :=
  omap (λ ev, match ev with
              | EvBoardToSvg _ _ last_move _ _ _ => Some last_move
              | _ => None
              end) evs.

(** The frames handed to the writer. *)
Definition appended (evs : list Event) : list Image :=
  omap (λ ev, match ev with EvAppendData im => Some im | _ => None end) evs.

(** What a run added to the trace. *)
Definition events_since (w w' : World) : list Event :=
  drop (length (trace w)) (trace w').

Definition empty_world : World :=
  {| fs := ∅; temps := []; writers := []; trace := [] |}.

End Pipeline.

(** ** A small instance to run the pipeline on

    Moves are their SAN text and a board is the list of the moves played on
    it.  The parser keeps the tokens that look like a square move, as the
    lenient tokenizer of python-chess does, gives a game whenever the text is
    not empty, and [None] at the end of input.  Rendering and decoding keep
    what they are given; the writer's bytes show one [F] per frame, and, as
    imageio's, it accepts any number of frames. *)
Module Ref.

#[export] Instance rules : ChessRules := {|
  Board := list string;
  Move := string;
  chess_Board := [];
  push b m := b ++ [m];
|}.

Fixpoint line (moves : list string) : list ChildNode :=
  match moves with
  | [] => []
  | m :: rest => [mkChild m (line rest)]
  end.

Definition is_file (c : ascii) : bool :=
  let n := nat_of_ascii c in (97 <=? n)%nat && (n <=? 104)%nat.

Definition is_rank (c : ascii) : bool :=
  let n := nat_of_ascii c in (49 <=? n)%nat && (n <=? 56)%nat.

Definition is_move (tok : string) : bool :=
  match tok with
  | String f (String r EmptyString) => is_file f && is_rank r
  | _ => false
  end.

Fixpoint tokens (s : string) (cur : string) : list string :=
  match s with
  | EmptyString => [cur]
  | String c rest =>
      if bool_decide (c = " "%char) then cur :: tokens rest ""
      else tokens rest (cur +:+ String c EmptyString)
  end.

Definition parse (pgn : string) : option Game :=
  if bool_decide (pgn = "") then None
  else Some {| game_board := []; game_variations := line (filter is_move (tokens pgn "")) |}.

Record Rendering := {
  r_board : list string;
  r_orientation : Color;
  r_last_move : option string;
  r_size : Z;
}.

Definition encode (fs : list Rendering) : string :=
  "GIF" +:+ fold_right (λ _ acc, "F" +:+ acc) ";" fs.

#[export] Instance libraries : Libraries := {|
  float := Z;
  Svg := Rendering;
  Png := Rendering;
  Image := Rendering;
  read_game := parse;
  chess_svg_board b o lm sz _ _ :=
    {| r_board := b; r_orientation := o; r_last_move := lm; r_size := sz |};
  svg2png svg := Ok svg;
  imread png := Ok png;
  writer_open _ := Ok tt;
  writer_close _ fs := Ok (encode fs);
|}.

Definition e4_e5 : Game :=
  {| game_board := []; game_variations := line ["e4"; "e5"] |}.

Definition no_moves : Game :=
  {| game_board := []; game_variations := [] |}.

End Ref.
(** * Properties *)

(** ** The mainline *)

Section MainlineFacts.
Context `{ChessRules}.

(** Induction along the first variation, the only one the mainline follows. *)
Lemma ChildNode_mainline_ind (P : ChildNode → Prop) :
  (∀ m, P (mkChild m [])) →
  (∀ m c rest, P c → P (mkChild m (c :: rest))) →
  ∀ n, P n.
Proof.
  intros Hend Hstep. fix IH 1.
  intros [m [|c rest]]; [apply Hend | apply Hstep, IH].
Qed.

Lemma Mainline_from_fmap {T} (g : Game) (f : GameNode → T) n :
  ∀ up, Mainline_from g f up n = f <$> Mainline_from g id up n.
Proof.
  induction n as [m | m c rest IH] using ChildNode_mainline_ind; intros up.
  - reflexivity.
  - cbn [Mainline_from]. rewrite IH. reflexivity.
Qed.

Lemma Mainline_fmap {T} (g : Game) (f : GameNode → T) :
  Mainline g f = f <$> mainline g.
Proof.
  unfold mainline, Mainline. destruct (game_variations g) as [|c rest].
  - reflexivity.
  - apply Mainline_from_fmap.
Qed.

Lemma mainline_moves_fmap (g : Game) :
  mainline_moves g = (λ n, move (node n)) <$> mainline g.
Proof. apply Mainline_fmap. Qed.

Lemma mainline_length (g : Game) :
  length (mainline g) = length (mainline_moves g).
Proof. rewrite mainline_moves_fmap, length_fmap. reflexivity. Qed.

(** [zip] pairs every node of the mainline with its own move. *)
Lemma zip_mainline (g : Game) :
  zip (mainline_moves g) (mainline g) = (λ n, (move (node n), n)) <$> mainline g.
Proof.
  rewrite mainline_moves_fmap. induction (mainline g) as [|n l IH].
  - reflexivity.
  - cbn. rewrite <- IH. reflexivity.
Qed.

(** The [i]-th node of the walk knows the root, and its stack of moves,
    far end first, is the parent chain it started from followed by the
    first [i + 1] moves of the walk. *)
Lemma Mainline_from_lookup (g : Game) n :
  ∀ up i nd,
    Mainline_from g id up n !! i = Some nd →
    root nd = g ∧
    rev (move (node nd) :: ancestors nd) =
      rev up ++ take (S i) ((λ x, move (node x)) <$> Mainline_from g id up n).
Proof.
  induction n as [m | m c rest IH] using ChildNode_mainline_ind;
    intros up i nd Hi.
  - destruct i as [|i]; [|discriminate]. injection Hi as <-. cbn. done.
  - destruct i as [|i].
    + injection Hi as <-. cbn. done.
    + cbn [Mainline_from] in Hi. rewrite lookup_cons in Hi.
      destruct (IH _ _ _ Hi) as [Hroot Hstack]. split; [done|].
      rewrite Hstack. cbn [rev]. rewrite <- app_assoc. reflexivity.
Qed.

Lemma mainline_lookup (g : Game) i nd :
  mainline g !! i = Some nd →
  node_board nd = replay (game_board g) (take (S i) (mainline_moves g)).
Proof.
  unfold mainline, mainline_moves, Mainline.
  destruct (game_variations g) as [|c rest]; [done|]. intros Hi.
  destruct (Mainline_from_lookup _ _ _ _ _ Hi) as [Hroot Hstack].
  unfold node_board, replay. rewrite Hroot, Hstack.
  rewrite (Mainline_from_fmap g (λ n, move (node n))). reflexivity.
Qed.

End MainlineFacts.

(** ** The generators *)

Section PipelineFacts.
Context `{Libraries}.

(** The positions after each move, each re-derived from the move list and
    the game's starting position alone, with the move that led to it. *)
Definition positions (g : Game) : list (Board * option Move) :=
  imap (λ i m, (replay (game_board g) (take (S i) (mainline_moves g)), Some m))
    (mainline_moves g).

(** What the board generator yields before it ends, and how it ends. *)
Definition yielded (game : option Game) (add_initial_position : bool)
    : list (Board * option Move) :=
  (if add_initial_position then [(chess_Board, None)] else []) ++
  match game with
  | None => []
  | Some g => positions g
  end.

Definition stops (game : option Game) : option Exn :=
  match game with
  | None => Some (AttributeError "'NoneType' object has no attribute 'mainline_moves'")
  | Some _ => None
  end.

(** A generator that yields the items without touching the world, and then
    ends or raises. *)
Definition pure_gen {A} (items : list A) (stop : option Exn) : Gen A :=
  (mret <$> items) ++
  match stop with
  | None => []
  | Some e => [raise e]
  end.

Lemma zip_positions (g : Game) :
  (λ '(move, game_node), (node_board game_node, Some move))
    <$> zip (mainline_moves g) (mainline g) = positions g.
Proof.
  rewrite zip_mainline. unfold positions. apply list_eq. intros i.
  rewrite list_lookup_imap, mainline_moves_fmap, !list_lookup_fmap.
  destruct (mainline g !! i) as [nd|] eqn:Hi; [|reflexivity].
  cbn [fmap option_fmap option_map]. rewrite (mainline_lookup _ _ _ Hi).
  rewrite mainline_moves_fmap. reflexivity.
Qed.

Lemma game_to_boards_and_last_moves_shape game b :
  game_to_boards_and_last_moves game b = pure_gen (yielded game b) (stops game).
Proof.
  unfold game_to_boards_and_last_moves, pure_gen, yielded.
  rewrite fmap_app, <- app_assoc. f_equal; [destruct b; reflexivity|].
  destruct game as [g|]; cbn [stops].
  - rewrite app_nil_r, <- zip_positions, <- list_fmap_compose.
    apply list_fmap_ext. intros _ [m nd] _. reflexivity.
  - reflexivity.
Qed.

Lemma gen_to_list_pure {A} (items : list A) w :
  gen_to_list (pure_gen items None) w = (Ok items, w).
Proof.
  unfold pure_gen. rewrite app_nil_r. induction items as [|x l IH].
  - reflexivity.
  - cbn. unfold mbind, M_bind, mret, M_ret in *. cbn. rewrite IH. reflexivity.
Qed.

(** ** The frame loop in closed form *)

Lemma alter_snoc {A} (f : A → A) (l : list A) x :
  alter f (length l) (l ++ [x]) = l ++ [f x].
Proof. induction l as [|y l IH]; [reflexivity|]. cbn. by rewrite IH. Qed.

Lemma lookup_snoc {A} (l : list A) x : (l ++ [x]) !! length l = Some x.
Proof. by apply list_lookup_middle. Qed.

Lemma insert_snoc {A} (l : list A) x y : <[length l := y]> (l ++ [x]) = l ++ [y].
Proof. rewrite insert_app_r_alt by lia. by rewrite Nat.sub_diag. Qed.

Lemma add_trace_add_trace evs1 evs2 w :
  add_trace evs2 (add_trace evs1 w) = add_trace (evs1 ++ evs2) w.
Proof. unfold add_trace. cbn. rewrite app_assoc. reflexivity. Qed.

Lemma add_trace_nil w : add_trace [] w = w.
Proof. destruct w. unfold add_trace. cbn. rewrite app_nil_r. reflexivity. Qed.

Definition append_frames (ims : list Image) (wr : Writer) : Writer :=
  {| sink := sink wr; writer_opts := writer_opts wr; frames := frames wr ++ ims |}.

(** The world after a stretch of the loop: what it recorded and what it
    appended to the writer. *)
Definition fed (writer : nat) (evs : list Event) (ims : list Image)
    (w : World) : World :=
  {| fs := fs w; temps := temps w;
     writers := alter (append_frames ims) writer (writers w);
     trace := trace w ++ evs |}.

Lemma fed_nil writer evs w : fed writer evs [] w = add_trace evs w.
Proof.
  unfold fed, add_trace. f_equal. apply list_alter_id.
  intros [s o f]. unfold append_frames. cbn. rewrite app_nil_r. reflexivity.
Qed.

Lemma fed_fed writer evs1 ims1 evs2 ims2 w :
  fed writer evs2 ims2 (fed writer evs1 ims1 w)
  = fed writer (evs1 ++ evs2) (ims1 ++ ims2) w.
Proof.
  unfold fed. cbn. rewrite app_assoc. f_equal.
  rewrite list_alter_alter_eq. apply list_alter_ext; [|done].
  intros [s o f] _. unfold append_frames. cbn. rewrite app_assoc. reflexivity.
Qed.

Section Frames.
Variables (highlight_last_move : bool) (orientation : Color) (size : Z)
  (coordinates : bool) (style : option string).

(** [board_to_svg(board, orientation, last_move if highlight_last_move else None, ...)] *)
Definition render (item : Board * option Move) : M Svg :=
  let '(board, last_move) := item in
  board_to_svg board orientation
    (if highlight_last_move then last_move else None) size coordinates style.

(** What one position takes through rendering, rasterizing, decoding and
    appending: the calls recorded, and the frame appended or the error. *)
Definition frame_run (item : Board * option Move) : list Event * Result Image :=
  let lm := if highlight_last_move then item.2 else None in
  let call := EvBoardToSvg item.1 orientation lm size coordinates style in
  if bool_decide (size > 0)%Z then
    let svg := chess_svg_board item.1 orientation lm size coordinates style in
    match svg2png svg with
    | Raise e => ([call; EvSvg2Png svg], Raise e)
    | Ok png =>
        match imread png with
        | Raise e => ([call; EvSvg2Png svg; EvImread png], Raise e)
        | Ok im => ([call; EvSvg2Png svg; EvImread png; EvAppendData im], Ok im)
        end
    end
  else ([call], Raise (AssertionError "size of the board must be positive integer")).

Fixpoint frames_run (items : list (Board * option Move)) (stop : option Exn)
    : list Event * list Image * Result unit :=
  match items with
  | [] => ([], [], match stop with None => Ok tt | Some e => Raise e end)
  | item :: rest =>
      match frame_run item with
      | (evs, Raise e) => (evs, [], Raise e)
      | (evs, Ok im) =>
          let '(evs', ims, r) := frames_run rest stop in
          (evs ++ evs', im :: ims, r)
      end
  end.

Definition pngs_of (boards_and_last_moves : Gen (Board * option Move)) : Gen Png :=
  gen_map svg_to_png (gen_map render boards_and_last_moves).

Lemma frame_step writer item (w : World) :
  (png ← (svg ← (x ← mret item; render x); svg_to_png svg);
   im ← imageio_imread png; append_data writer im) w
  = match frame_run item with
    | (evs, Ok im) => (Ok tt, fed writer evs [im] w)
    | (evs, Raise e) => (Raise e, add_trace evs w)
    end.
Proof.
  destruct item as [board last_move].
  unfold frame_run, render, board_to_svg, svg_to_png, imageio_imread,
    append_data, log, modify, lift, get, raise, mbind, M_bind, mret, M_ret.
  cbn. destruct (bool_decide (size > 0)%Z); [|reflexivity].
  destruct (svg2png _) as [png|e]; [|by rewrite add_trace_add_trace].
  destruct (imread png) as [im|e]; [|by rewrite !add_trace_add_trace].
  unfold fed, set_writers, add_trace. cbn. rewrite <- !app_assoc. reflexivity.
Qed.

Lemma for_each_pure writer items stop :
  ∀ w,
    for_each (pngs_of (pure_gen items stop))
      (λ png, im ← imageio_imread png; append_data writer im) w
    = let '(evs, ims, r) := frames_run items stop in (r, fed writer evs ims w).
Proof.
  induction items as [|item rest IH]; intros w.
  - cbn [frames_run]. rewrite fed_nil, add_trace_nil. destruct stop; reflexivity.
  - cbn [frames_run]. pose proof (frame_step writer item w) as Hstep.
    unfold pngs_of, pure_gen, gen_map in *. cbn [fmap list_fmap app for_each].
    change (for_each ?g ?b) with (for_each g b) in IH.
    unfold mbind at 1 2. unfold M_bind at 1 2.
    unfold mbind at 1 in Hstep. unfold M_bind at 1 in Hstep.
    set (c := ((mret item ≫= λ x, render x) ≫= λ svg, svg_to_png svg) w) in *.
    destruct (frame_run item) as [evs [im|e]]; destruct c as [[png|e'] w1].
    + rewrite Hstep, IH. destruct (frames_run rest stop) as [[evs' ims] r].
      rewrite fed_fed. reflexivity.
    + discriminate Hstep.
    + rewrite Hstep, fed_nil. reflexivity.
    + rewrite Hstep, fed_nil. reflexivity.
Qed.

(** What the loop records extends the trace; the frames it appended are
    the frames it recorded. *)
Lemma frames_run_appended items stop :
  appended (frames_run items stop).1.1 = (frames_run items stop).1.2.
Proof.
  induction items as [|item rest IH]; [reflexivity|].
  cbn [frames_run]. unfold frame_run.
  destruct (bool_decide (size > 0)%Z); [|reflexivity].
  destruct (svg2png _) as [png|e]; [|reflexivity].
  destruct (imread png) as [im|e]; [|reflexivity].
  destruct (frames_run rest stop) as [[evs' ims] r]. cbn in *.
  by rewrite IH.
Qed.

(** A loop that ends without an error has appended one frame per item. *)
Lemma frames_run_ok_length items stop :
  is_ok (frames_run items stop).2 = true →
  length (frames_run items stop).1.2 = length items.
Proof.
  induction items as [|item rest IH]; [reflexivity|].
  cbn [frames_run]. destruct (frame_run item) as [evs [im|e]]; [|discriminate].
  destruct (frames_run rest stop) as [[evs' ims] r]. cbn in *.
  intros Hok. by rewrite IH.
Qed.

Lemma frames_run_ok_stop items stop :
  is_ok (frames_run items stop).2 = true → stop = None.
Proof.
  induction items as [|item rest IH].
  - destruct stop; [discriminate|done].
  - cbn [frames_run]. destruct (frame_run item) as [evs [im|e]]; [|discriminate].
    destruct (frames_run rest stop) as [[evs' ims] r]. cbn in *. exact IH.
Qed.

(** The last-move arguments the renderer was called with: those of the
    items, overridden when highlighting is off, as far as the loop got. *)
Lemma frames_run_last_moves items stop :
  render_last_moves (frames_run items stop).1.1 `prefix_of`
    ((λ item, if highlight_last_move then item.2 else None) <$> items) ∧
  (is_ok (frames_run items stop).2 = true →
   render_last_moves (frames_run items stop).1.1 =
     (λ item, if highlight_last_move then item.2 else None) <$> items).
Proof.
  induction items as [|item rest [IHp IHe]]; [split; [apply prefix_nil|done]|].
  cbn [frames_run]. unfold frame_run.
  destruct (bool_decide (size > 0)%Z);
    [|split; [apply (prefix_cons _ []), prefix_nil|discriminate]].
  destruct (svg2png _) as [png|e];
    [|split; [apply (prefix_cons _ []), prefix_nil|discriminate]].
  destruct (imread png) as [im|e];
    [|split; [apply (prefix_cons _ []), prefix_nil|discriminate]].
  destruct (frames_run rest stop) as [[evs' ims] r]. cbn in *. split.
  - apply prefix_cons, IHp.
  - intros Hok. by rewrite IHe.
Qed.

(** ** The encoder in closed form *)

Definition fresh_temp : TempFile :=
  {| content := ""; position := 0; closed := false |}.

Definition written (data : string) : TempFile :=
  {| content := data; position := String.length data; closed := false |}.

(** The world after the encoder has created its temporary file [t], opened
    a writer on it, run the loop and left the writer. *)
Definition encoded (w : World) (opts : WriterOpts float) (evs : list Event)
    (ims : list Image) (t : TempFile) : World :=
  let h := length (temps w) in
  {| fs := fs w;
     temps := temps w ++ [t];
     writers := writers w ++ [{| sink := h; writer_opts := opts; frames := ims |}];
     trace := trace w ++ [EvTemporaryFile h; EvGetWriter h opts] ++ evs ++ [EvWriterClose h] |}.

(** The world when the writer refuses its options. *)
Definition refused (w : World) (opts : WriterOpts float) : World :=
  let h := length (temps w) in
  {| fs := fs w;
     temps := temps w ++ [fresh_temp];
     writers := writers w;
     trace := trace w ++ [EvTemporaryFile h; EvGetWriter h opts] |}.

Definition options (loop : Z) (duration fps : option float) (palettesize : Z)
    (subrectangles : bool) : WriterOpts float :=
  {| opt_loop := loop; opt_duration := duration; opt_fps := fps;
     opt_palettesize := palettesize; opt_subrectangles := subrectangles |}.

Lemma pngs_to_gif_pure items stop loop duration fps palettesize subrectangles w :
  ¬ (duration = None ∧ fps = None) →
  pngs_to_gif (pngs_of (pure_gen items stop)) loop duration fps palettesize
    subrectangles w
  = let opts := options loop duration fps palettesize subrectangles in
    match writer_open opts with
    | Raise e => (Raise e, refused w opts)
    | Ok _ =>
        let '(evs, ims, r) := frames_run items stop in
        match writer_close opts ims with
        | Raise e => (Raise e, encoded w opts evs ims fresh_temp)
        | Ok data =>
            (match r with Ok _ => Ok (length (temps w)) | Raise e => Raise e end,
             encoded w opts evs ims (written data))
        end
    end.
Proof.
  intros Htiming. unfold pngs_to_gif. rewrite bool_decide_false by done.
  fold (options loop duration fps palettesize subrectangles).
  set (opts := options _ _ _ _ _).
  pose proof (for_each_pure (length (writers w)) items stop) as Hloop.
  set (feed := for_each _) in *.
  unfold TemporaryFile, get_writer, finally, writer_exit, temp_write, open_temp,
    temp_put, log, modify, lift, get, raise, mbind, M_bind, mret, M_ret.
  cbn. destruct (writer_open opts) as [[]|e];
    [|unfold refused, add_trace, set_temps; cbn; by rewrite <- app_assoc].
  cbn. rewrite Hloop. destruct (frames_run items stop) as [[evs ims] r].
  unfold fed, add_trace, set_temps, set_writers. cbn.
  rewrite alter_snoc, lookup_snoc. cbn. rewrite lookup_snoc. cbn.
  rewrite <- !app_assoc. cbn [app].
  destruct (writer_close opts ims) as [data|e]; [|reflexivity].
  cbn. rewrite insert_snoc. destruct r as [[]|e]; reflexivity.
Qed.

End Frames.

(** ** The output writer *)

(** A step that touches the file system only. *)
Definition fs_only (w w' : World) : Prop :=
  temps w' = temps w ∧ writers w' = writers w ∧ trace w' = trace w.

Lemma node_at_insert_eq (f : gmap Path FsNode) p :
  node_at (<[p := Dir]> f) p = Some Dir.
Proof. destruct p; [reflexivity|]. cbn. apply lookup_insert_eq. Qed.

Lemma os_mkdir_spec p w r w' :
  os_mkdir p w = (r, w') →
  fs_only w w' ∧ (is_ok r = true → is_dir (fs w') p = true).
Proof.
  unfold os_mkdir, get, modify, raise, mbind, M_bind. cbn.
  destruct (node_at (fs w) p) as [nd|].
  { intros [= <- <-]. by split. }
  destruct (node_at (fs w) (parent p)) as [[|c]|]; intros [= <- <-];
    (split; [done|]); try discriminate.
  intros _. unfold is_dir. cbn. by rewrite node_at_insert_eq.
Qed.

Lemma mkdir_leaf_spec p exist_ok w r w' :
  mkdir_leaf p exist_ok w = (r, w') →
  fs_only w w' ∧ (is_ok r = true → is_dir (fs w') p = true).
Proof.
  unfold mkdir_leaf. destruct (os_mkdir p w) as [r1 w1] eqn:Hos.
  destruct (os_mkdir_spec _ _ _ _ Hos) as [Hframe Hdir].
  destruct r1 as [[]|e].
  { intros [= <- <-]. by split. }
  destruct (exist_ok && is_dir (fs w1) p) eqn:Hex;
    destruct e; intros [= <- <-]; (split; [done|]); try discriminate;
    intros _; by apply andb_prop in Hex as [_ ?].
Qed.

Lemma mkdir_rev_spec rp :
  ∀ parents exist_ok w r w',
    mkdir_rev rp parents exist_ok w = (r, w') →
    fs_only w w' ∧ (is_ok r = true → is_dir (fs w') (rev rp) = true).
Proof.
  induction rp as [|name rparent IH]; intros parents exist_ok w r w'.
  - cbn [mkdir_rev]. destruct (os_mkdir (rev []) w) as [r1 w1] eqn:Hos.
    destruct (os_mkdir_spec _ _ _ _ Hos) as [Hframe Hdir].
    destruct r1 as [[]|e].
    { intros [= <- <-]. by split. }
    destruct (exist_ok && is_dir (fs w1) (rev [])) eqn:Hex;
      destruct e; intros [= <- <-]; (split; [done|]); try discriminate;
      intros _; by apply andb_prop in Hex as [_ ?].
  - cbn [mkdir_rev]. destruct (os_mkdir (rev (name :: rparent)) w) as [r1 w1] eqn:Hos.
    destruct (os_mkdir_spec _ _ _ _ Hos) as [Hframe Hdir].
    destruct r1 as [[]|e].
    { intros [= <- <-]. by split. }
    assert (Hother : ∀ r w',
      (if exist_ok && is_dir (fs w1) (rev (name :: rparent))
       then (Ok (), w1) else (Raise e, w1)) = (r, w') →
      fs_only w w' ∧ (is_ok r = true → is_dir (fs w') (rev (name :: rparent)) = true)).
    { intros r0 w0.
      destruct (exist_ok && is_dir (fs w1) (rev (name :: rparent))) eqn:Hex;
        intros [= <- <-]; (split; [done|]); try discriminate.
      intros _. by apply andb_prop in Hex as [_ ?]. }
    destruct e; try apply Hother.
    destruct parents; [|intros [= <- <-]; by split].
    unfold mbind, M_bind.
    destruct (mkdir_rev rparent true true w1) as [r2 w2] eqn:Hup.
    destruct (IH _ _ _ _ _ Hup) as [Hframe2 _].
    destruct r2 as [[]|e].
    + intros Hleaf. destruct (mkdir_leaf_spec _ _ _ _ _ Hleaf) as [Hframe3 Hdir3].
      split; [|done]. unfold fs_only in *. intuition congruence.
    + intros [= <- <-]. split; [|discriminate].
      unfold fs_only in *. intuition congruence.
Qed.

Lemma mkdir_spec p parents exist_ok w r w' :
  mkdir p parents exist_ok w = (r, w') →
  temps w' = temps w ∧ writers w' = writers w ∧
  trace w' = trace w ++ [EvMkdir p] ∧
  (is_ok r = true → is_dir (fs w') p = true).
Proof.
  unfold mkdir, log, modify, mbind, M_bind. cbn. intros Hrev.
  destruct (mkdir_rev_spec _ _ _ _ _ _ Hrev) as [(Ht & Hw & Htr) Hdir].
  rewrite rev_involutive in Hdir. cbn in *. done.
Qed.

Lemma substring_all (s : string) :
  String.substring 0 (String.length s - 0) s = s.
Proof.
  rewrite Nat.sub_0_r. induction s as [|c s IH]; [reflexivity|].
  cbn. by rewrite IH.
Qed.

Lemma parent_ne (p : Path) : p ≠ [] → parent p ≠ p.
Proof.
  intros Hp Heq. apply (f_equal length) in Heq. unfold parent in Heq.
  destruct (exists_last Hp) as (q & x & ->).
  rewrite removelast_last, length_app in Heq. cbn in Heq. lia.
Qed.

Lemma node_at_insert_parent (f : gmap Path FsNode) p nd :
  p ≠ [] → node_at (<[p := nd]> f) (parent p) = node_at f (parent p).
Proof.
  intros Hp. unfold node_at. destruct (parent p) eqn:Hpar; [reflexivity|].
  rewrite lookup_insert_ne; [done|]. rewrite <- Hpar. by apply not_eq_sym, parent_ne.
Qed.

(** Events of the file system and of the temporary files. *)
Definition quiet (evs : list Event) : Prop :=
  appended evs = [] ∧ render_last_moves evs = [].

Definition released (t : TempFile) : TempFile :=
  {| content := content t; position := String.length (content t); closed := true |}.

Ltac quiet_trace :=
  eexists; split; [reflexivity | split; reflexivity].

(** The output writer on an open temporary file: when it returns, the
    parent directory exists, the destination holds the whole content and the
    temporary file is closed; when it raises, the temporary file is as open
    as it was. *)
Lemma save_gif_temp_file_spec temp_file path t w r w' :
  temps w !! temp_file = Some t → closed t = false →
  save_gif_temp_file temp_file path w = (r, w') →
  writers w' = writers w ∧
  (∃ evs, trace w' = trace w ++ evs ∧ quiet evs) ∧
  match r with
  | Ok _ =>
      is_dir (fs w') (parent path) = true ∧
      fs w' !! path = Some (File (content t)) ∧
      temps w' = <[temp_file := released t]> (temps w)
  | Raise e =>
      ∃ t', temps w' !! temp_file = Some t' ∧ closed t' = false ∧
            content t' = content t
  end.
Proof.
  intros Ht Hopen. unfold save_gif_temp_file.
  unfold mbind at 1. unfold M_bind at 1.
  destruct (mkdir (parent path) true true w) as [r1 w1] eqn:Hmk.
  destruct (mkdir_spec _ _ _ _ _ _ Hmk) as (Ht1 & Hw1 & Htr1 & Hdir1).
  destruct r1 as [[]|e].
  2:{ intros [= <- <-]. split; [done|]. split; [rewrite Htr1; quiet_trace|].
      exists t. by rewrite Ht1. }
  specialize (Hdir1 eq_refl).
  unfold temp_seek, open_wb, temp_read, file_write, temp_close, open_temp,
    temp_put, log, modify, get, raise, mbind, M_bind, mret, M_ret.
  cbn. rewrite Ht1, Ht, Hopen. cbn.
  assert (Hlt : (temp_file < length (temps w))%nat) by by eapply lookup_lt_Some.
  assert (Hwritten : ∀ wf,
    writers wf = writers w1 →
    trace wf = (trace w1 ++ [EvOpenWrite path]) ++ [EvTempClose temp_file] →
    fs wf = <[path := File (String.substring 0 (String.length (content t) - 0)
                              (content t))]> (<[path := File ""]> (fs w1)) →
    temps wf = <[temp_file := released t]> (temps w) →
    (Ok (), wf) = (r, w') → path ≠ [] →
    writers w' = writers w ∧
    (∃ evs, trace w' = trace w ++ evs ∧ quiet evs) ∧
    match r with
    | Ok _ =>
        is_dir (fs w') (parent path) = true ∧
        fs w' !! path = Some (File (content t)) ∧
        temps w' = <[temp_file := released t]> (temps w)
    | Raise e =>
        ∃ t', temps w' !! temp_file = Some t' ∧ closed t' = false ∧
              content t' = content t
    end).
  { intros wf Hwf Htrf Hfsf Htf [= <- <-] Hp. split; [congruence|].
    rewrite Htrf, Htr1, <- !app_assoc. split; [quiet_trace|].
    rewrite Hfsf, substring_all. split; [|split].
    - unfold is_dir in *. by rewrite !node_at_insert_parent.
    - apply lookup_insert_eq.
    - done. }
  destruct (node_at (fs w1) path) as [[|c]|] eqn:Hnode.
  - intros [= <- <-]. cbn. split; [done|]. rewrite Htr1, <- app_assoc.
    split; [quiet_trace|]. eexists. rewrite Ht1, list_lookup_insert_eq by done. done.
  - cbn. rewrite Ht1, !list_lookup_insert_eq by (by rewrite ?length_insert). cbn.
    rewrite ?Ht1, ?list_lookup_insert_eq by (by rewrite ?length_insert). cbn.
    intros Hrun. eapply Hwritten; [..|exact Hrun|by intros ->]; cbn;
      rewrite ?list_insert_insert_eq; reflexivity.
  - destruct (node_at (fs w1) (parent path)) as [[|c]|] eqn:Hpar;
      try (unfold is_dir in Hdir1; rewrite Hpar in Hdir1; discriminate).
    cbn. rewrite Ht1, !list_lookup_insert_eq by (by rewrite ?length_insert). cbn.
    rewrite ?Ht1, ?list_lookup_insert_eq by (by rewrite ?length_insert). cbn.
    intros Hrun. eapply Hwritten; [..|exact Hrun|by intros ->]; cbn;
      rewrite ?list_insert_insert_eq; reflexivity.
Qed.

Lemma mkdir_existing p w :
  is_dir (fs w) p = true →
  mkdir p true true w = (Ok tt, add_trace [EvMkdir p] w).
Proof.
  intros Hdir. unfold mkdir, log, modify, mbind, M_bind.
  set (w1 := add_trace [EvMkdir p] w).
  assert (os_mkdir p w1 = (Raise FileExistsError, w1)) as Hos.
  { unfold os_mkdir, get, raise, mbind, M_bind. unfold is_dir in Hdir. cbn.
    by destruct (node_at (fs w) p). }
  destruct (rev p) as [|name rparent] eqn:Hrev;
    apply (f_equal (@rev string)) in Hrev; rewrite rev_involutive in Hrev;
    cbn [mkdir_rev]; rewrite <- Hrev, Hos; cbn; by rewrite Hdir.
Qed.

(** The output writer returns when the parent directory is there and the
    destination is not a directory. *)
Lemma save_gif_temp_file_returns temp_file path t w :
  temps w !! temp_file = Some t → closed t = false →
  is_dir (fs w) (parent path) = true →
  node_at (fs w) path ≠ Some Dir →
  ∃ w', save_gif_temp_file temp_file path w = (Ok tt, w').
Proof.
  intros Ht Hopen Hdir Hnot. unfold save_gif_temp_file.
  unfold mbind at 1. unfold M_bind at 1. rewrite (mkdir_existing _ _ Hdir).
  assert (Hlt : (temp_file < length (temps w))%nat) by by eapply lookup_lt_Some.
  unfold temp_seek, open_wb, temp_read, file_write, temp_close, open_temp,
    temp_put, log, modify, get, raise, mbind, M_bind, mret, M_ret.
  cbn. rewrite Ht, Hopen. cbn. unfold is_dir in Hdir.
  destruct (node_at (fs w) path) as [[|c]|]; [done| |];
    [|destruct (node_at (fs w) (parent path)) as [[|c]|]; try done];
    cbn; rewrite !list_lookup_insert_eq by (by rewrite ?length_insert); cbn;
    rewrite ?list_lookup_insert_eq by (by rewrite ?length_insert); by eexists.
Qed.

(** ** The pipeline in closed form *)

Section Run.
Variables (game : option Game) (gif_path : option Path)
  (add_initial_position highlight_last_move : bool) (orientation : Color)
  (size : Z) (coordinates : bool) (style : option string) (loop : Z)
  (duration fps : option float) (palettesize : Z) (subrectangles : bool).

Definition run_frames : list Event * list Image * Result unit :=
  frames_run highlight_last_move orientation size coordinates style
    (yielded game add_initial_position) (stops game).

Definition run_options : WriterOpts float :=
  options loop duration fps palettesize subrectangles.

(** Every way a run of [game_to_gif] can go, in the order of the code. *)
Definition game_to_gif_outcome (w : World) : Result (option nat) * World :=
  if bool_decide (duration = None ∧ fps = None)
  then (Raise (ValueError "duration and fps cannot be None at the same time"), w)
  else
    match writer_open run_options with
    | Raise e => (Raise e, refused w run_options)
    | Ok _ =>
        let '(evs, ims, r) := run_frames in
        match writer_close run_options ims with
        | Raise e => (Raise e, encoded w run_options evs ims fresh_temp)
        | Ok data =>
            let w1 := encoded w run_options evs ims (written data) in
            match r with
            | Raise e => (Raise e, w1)
            | Ok _ =>
                match gif_path with
                | None => (Ok (Some (length (temps w))), w1)
                | Some path =>
                    match save_gif_temp_file (length (temps w)) path w1 with
                    | (Ok _, w2) => (Ok None, w2)
                    | (Raise e, w2) => (Raise e, w2)
                    end
                end
            end
        end
    end.

Lemma game_to_gif_closed w :
  game_to_gif game gif_path add_initial_position highlight_last_move
    orientation size coordinates style loop duration fps palettesize
    subrectangles w
  = game_to_gif_outcome w.
Proof.
  unfold game_to_gif, game_to_gif_outcome.
  rewrite game_to_boards_and_last_moves_shape.
  unfold mbind at 1. unfold M_bind at 1.
  destruct (bool_decide (duration = None ∧ fps = None)) eqn:Htiming.
  - unfold pngs_to_gif. rewrite Htiming. reflexivity.
  - apply bool_decide_eq_false in Htiming.
    pose proof (pngs_to_gif_pure highlight_last_move orientation size
      coordinates style (yielded game add_initial_position) (stops game)
      loop duration fps palettesize subrectangles w Htiming) as Hrun.
    unfold pngs_of, render in Hrun. rewrite Hrun. clear Hrun.
    fold run_options. cbn zeta. destruct (writer_open run_options) as [[]|e]; [|done].
    unfold run_frames. destruct (frames_run _ _ _ _ _ _ _) as [[evs ims] r].
    destruct (writer_close run_options ims) as [data|e]; [|done].
    destruct r as [[]|e]; [|done].
    destruct gif_path as [path|]; [|done].
    unfold mbind, M_bind, mret, M_ret.
    destruct (save_gif_temp_file _ _ _) as [[[]|e] w2]; done.
Qed.

End Run.

Lemma events_since_app w w' evs :
  trace w' = trace w ++ evs → events_since w w' = evs.
Proof. unfold events_since. intros ->. apply drop_app_length. Qed.

Lemma yielded_length (g : Game) b :
  length (yielded (Some g) b)
  = (length (mainline_moves g) + (if b then 1 else 0))%nat.
Proof.
  unfold yielded, positions. rewrite length_app, length_imap.
  destruct b; cbn; lia.
Qed.

Lemma encoded_trace w opts evs ims t :
  trace (encoded w opts evs ims t)
  = trace w ++ [EvTemporaryFile (length (temps w)); EvGetWriter (length (temps w)) opts]
      ++ evs ++ [EvWriterClose (length (temps w))].
Proof. reflexivity. Qed.

Lemma encoded_lookup w opts evs ims t :
  temps (encoded w opts evs ims t) !! length (temps w) = Some t.
Proof. apply lookup_snoc. Qed.

Section RunFacts.
Variables (game : option Game) (gif_path : option Path)
  (add_initial_position highlight_last_move : bool) (orientation : Color)
  (size : Z) (coordinates : bool) (style : option string) (loop : Z)
  (duration fps : option float) (palettesize : Z) (subrectangles : bool).

Local Abbreviation the_run :=
  (game_to_gif game gif_path add_initial_position highlight_last_move
     orientation size coordinates style loop duration fps palettesize
     subrectangles).
Local Abbreviation the_frames :=
  (run_frames game add_initial_position highlight_last_move orientation size
     coordinates style).
Local Abbreviation the_options :=
  (run_options loop duration fps palettesize subrectangles).

(** A run that returns has run the loop to its end, and the writer has
    given the bytes; then the artifact is returned or saved. *)
Lemma game_to_gif_ok w r w' :
  the_run w = (Ok r, w') →
  ∃ evs ims data,
    the_frames = (evs, ims, Ok tt) ∧
    ¬ (duration = None ∧ fps = None) ∧
    writer_close the_options ims = Ok data ∧
    let w1 := encoded w the_options evs ims (written data) in
    match gif_path with
    | None => r = Some (length (temps w)) ∧ w' = w1
    | Some path =>
        r = None ∧ save_gif_temp_file (length (temps w)) path w1 = (Ok tt, w')
    end.
Proof.
  rewrite game_to_gif_closed. unfold game_to_gif_outcome.
  destruct (bool_decide (duration = None ∧ fps = None)) eqn:Htiming; [done|].
  apply bool_decide_eq_false in Htiming.
  destruct (writer_open the_options) as [[]|e]; [|done].
  destruct the_frames as [[evs ims] rr].
  destruct (writer_close the_options ims) as [data|e] eqn:Hclose; [|done].
  destruct rr as [[]|e]; [|done]. intros Hrun.
  exists evs, ims, data. do 3 (split; [done|]). cbn zeta.
  destruct gif_path as [path|].
  - destruct (save_gif_temp_file _ _ _) as [[[]|e] w2]; [|done].
    by injection Hrun as <- <-.
  - by injection Hrun as <- <-.
Qed.

(** What any run, returning or not, adds to the trace: the renderer was
    called with the last moves of the positions, overridden when
    highlighting is off, as far as the run got. *)
Lemma game_to_gif_renders w r w' :
  the_run w = (r, w') →
  let expected :=
    (λ item : Board * option Move, if highlight_last_move then item.2 else None)
      <$> yielded game add_initial_position in
  render_last_moves (events_since w w') `prefix_of` expected ∧
  (is_ok r = true → render_last_moves (events_since w w') = expected).
Proof.
  rewrite game_to_gif_closed. unfold game_to_gif_outcome.
  destruct (bool_decide (duration = None ∧ fps = None)).
  { intros [= <- <-]. rewrite (events_since_app w w []) by by rewrite app_nil_r.
    split; [apply prefix_nil|done]. }
  destruct (writer_open the_options) as [[]|e].
  2:{ intros [= <- <-]. erewrite events_since_app by reflexivity.
      split; [apply prefix_nil|done]. }
  pose proof (frames_run_last_moves highlight_last_move orientation size
    coordinates style (yielded game add_initial_position) (stops game))
    as [Hprefix Hall].
  fold the_frames in Hprefix, Hall.
  destruct the_frames as [[evs ims] rr]. cbn [fst snd] in *.
  assert (Hencoded : ∀ t (r0 : Result (option nat)),
    (is_ok r0 = true → is_ok rr = true) →
    let w1 := encoded w the_options evs ims t in
    render_last_moves (events_since w w1) `prefix_of`
      ((λ item : Board * option Move, if highlight_last_move then item.2 else None)
         <$> yielded game add_initial_position) ∧
    (is_ok r0 = true → render_last_moves (events_since w w1) =
      (λ item : Board * option Move, if highlight_last_move then item.2 else None)
         <$> yielded game add_initial_position)).
  { intros t r0 Hr0. cbn zeta. erewrite events_since_app by apply encoded_trace.
    unfold render_last_moves in *. rewrite !omap_app, app_nil_r. cbn.
    split; [done|]. intros Hok. by apply Hall, Hr0. }
  destruct (writer_close the_options ims) as [data|e].
  2:{ intros [= <- <-]. by apply Hencoded. }
  destruct rr as [[]|e].
  2:{ intros [= <- <-]. by apply Hencoded. }
  destruct gif_path as [path|].
  2:{ intros [= <- <-]. by apply Hencoded. }
  destruct (save_gif_temp_file _ _ _) as [r2 w2] eqn:Hsave.
  eapply save_gif_temp_file_spec in Hsave as (_ & (tail & Htrace & _ & Hquiet) & _);
    [|apply encoded_lookup|reflexivity].
  assert (render_last_moves (events_since w w2) =
    (λ item : Board * option Move, if highlight_last_move then item.2 else None)
       <$> yielded game add_initial_position) as Hw2.
  { erewrite events_since_app; [|rewrite Htrace, encoded_trace, <- app_assoc; reflexivity].
    unfold render_last_moves in *. rewrite !omap_app, Hquiet, !app_nil_r. cbn.
    by apply Hall. }
  destruct r2 as [[]|e]; intros [= <- <-]; by rewrite Hw2.
Qed.

(** A run that returns has appended the frames of the loop, and nothing
    else. *)
Lemma game_to_gif_ok_appended w r w' evs ims :
  the_run w = (Ok r, w') →
  the_frames = (evs, ims, Ok tt) →
  appended (events_since w w') = ims.
Proof.
  intros Hrun Hframes.
  apply game_to_gif_ok in Hrun as (evs' & ims' & data & Hframes' & _ & _ & Hend).
  rewrite Hframes in Hframes'. injection Hframes' as <- <-.
  pose proof (frames_run_appended highlight_last_move orientation size
    coordinates style (yielded game add_initial_position) (stops game)) as Happ.
  fold the_frames in Happ. rewrite Hframes in Happ. cbn [fst snd] in Happ.
  cbn zeta in Hend.
  assert (∀ tail, quiet tail →
    appended ([EvTemporaryFile (length (temps w));
               EvGetWriter (length (temps w)) the_options] ++ evs ++
              [EvWriterClose (length (temps w))] ++ tail) = ims) as Hcount.
  { intros tail [Hq _]. unfold appended in *.
    rewrite !omap_app, Hq, Happ. cbn. by rewrite app_nil_r. }
  destruct gif_path as [path|].
  - destruct Hend as [_ Hsave].
    eapply save_gif_temp_file_spec in Hsave as (_ & (tail & Htrace & Hquiet) & _);
      [|apply encoded_lookup|reflexivity].
    rewrite <- (Hcount tail Hquiet). f_equal. apply events_since_app.
    rewrite Htrace, encoded_trace, <- !app_assoc. reflexivity.
  - destruct Hend as [_ ->].
    rewrite <- (Hcount [] (conj eq_refl eq_refl)). f_equal.
    apply events_since_app. rewrite encoded_trace. reflexivity.
Qed.

End RunFacts.

End PipelineFacts.

(** * The claims *)

Section Claims.
Context `{Libraries}.

(** C1. For a game with N mainline moves, the sequence that
    [game_to_boards_and_last_moves] produces has N + 1 items when
    [add_initial_position] is set and N otherwise, and a run of
    [game_to_gif] that returns has handed exactly that many frames to the
    GIF writer. *)
Theorem frame_count (g : Game) (add_initial_position : bool) :
  let n := (length (mainline_moves g) + (if add_initial_position then 1 else 0))%nat in
  (∀ w, ∃ l,
     gen_to_list (game_to_boards_and_last_moves (Some g) add_initial_position) w
       = (Ok l, w) ∧
     length l = n) ∧
  (∀ gif_path highlight_last_move orientation size coordinates style loop
     duration fps palettesize subrectangles w r w',
     game_to_gif (Some g) gif_path add_initial_position highlight_last_move
       orientation size coordinates style loop duration fps palettesize
       subrectangles w = (Ok r, w') →
     length (appended (events_since w w')) = n).
Proof.
  split.
  - intros w. exists (yielded (Some g) add_initial_position).
    rewrite game_to_boards_and_last_moves_shape. cbn [stops].
    split; [apply gen_to_list_pure | apply yielded_length].
  - intros gif_path hl o size c st loop d f ps sr w r w' Hrun.
    destruct (game_to_gif_ok _ _ _ _ _ _ _ _ _ _ _ _ _ _ _ _ Hrun)
      as (evs & ims & data & Hframes & _).
    rewrite (game_to_gif_ok_appended _ _ _ _ _ _ _ _ _ _ _ _ _ _ _ _ _ _ Hrun Hframes).
    pose proof (frames_run_ok_length hl o size c st
      (yielded (Some g) add_initial_position) None) as Hlen.
    unfold run_frames in Hframes. cbn [stops] in Hframes.
    rewrite Hframes, yielded_length in Hlen. by apply Hlen.
Qed.

(** C2. For a parsed game the generator emits, for each mainline move in
    game order, the position right after that move paired with the move,
    preceded by the standard starting position paired with no move when
    [add_initial_position] is set; the position in pair [i] is the one
    obtained by applying [moves[0..i]], and nothing else, to the starting
    position of the game. *)
Theorem frames_follow_moves (g : Game) (add_initial_position : bool) (w : World) :
  gen_to_list (game_to_boards_and_last_moves (Some g) add_initial_position) w
  = (Ok ((if add_initial_position then [(chess_Board, None)] else []) ++
         imap (λ i m, (replay (game_board g) (take (S i) (mainline_moves g)),
                       Some m))
           (mainline_moves g)),
     w).
Proof.
  rewrite game_to_boards_and_last_moves_shape. cbn [stops].
  apply gen_to_list_pure.
Qed.

(** For a game that starts from the standard position, as every game
    without a set-up header does, the positions are those re-derived from
    [chess.Board()]. *)
Corollary frames_from_the_standard_position (g : Game) b (w : World) :
  game_board g = chess_Board →
  gen_to_list (game_to_boards_and_last_moves (Some g) b) w
  = (Ok ((if b then [(chess_Board, None)] else []) ++
         imap (λ i m, (replay chess_Board (take (S i) (mainline_moves g)),
                       Some m))
           (mainline_moves g)),
     w).
Proof.
  intros Hstandard. rewrite game_to_boards_and_last_moves_shape. cbn [stops].
  rewrite gen_to_list_pure. unfold yielded, positions. by rewrite Hstandard.
Qed.

(** C3. With [highlight_last_move] off, every call of the board renderer
    made by a run of [game_to_gif] gets no last move, whatever the generator
    produced; with it on, the calls get the generator's last moves unchanged
    and in order (all of them when the run returns, the first ones when it
    stops early). *)
Theorem highlight_override (g : Game) gif_path add_initial_position
    highlight_last_move orientation size coordinates style loop duration fps
    palettesize subrectangles (l : list (Board * option Move)) w0 w r w' :
  gen_to_list (game_to_boards_and_last_moves (Some g) add_initial_position) w0
    = (Ok l, w0) →
  game_to_gif (Some g) gif_path add_initial_position highlight_last_move
    orientation size coordinates style loop duration fps palettesize
    subrectangles w = (r, w') →
  let passed := render_last_moves (events_since w w') in
  (highlight_last_move = false → Forall (λ lm, lm = None) passed) ∧
  (highlight_last_move = true →
     passed `prefix_of` (snd <$> l) ∧ (is_ok r = true → passed = snd <$> l)).
Proof.
  rewrite game_to_boards_and_last_moves_shape. cbn [stops].
  rewrite gen_to_list_pure. intros [= <-] Hrun.
  apply game_to_gif_renders in Hrun as [Hprefix Hall]. cbn zeta in *. split.
  - intros ->. destruct Hprefix as [rest Hrest].
    assert (Forall (λ lm : option Move, lm = None)
      ((λ _ : Board * option Move, @None Move)
         <$> yielded (Some g) add_initial_position)) as Hnone.
    { apply Forall_fmap, Forall_true. done. }
    rewrite Hrest in Hnone. by apply Forall_app in Hnone as [? _].
  - intros ->. done.
Qed.

(** C4. With neither [duration] nor [fps] given, [pngs_to_gif] raises a
    [ValueError] (InvalidArgument) and leaves the world as it was: no item
    of the frame sequence has been asked for, no temporary file made, no
    writer opened; so does the pipeline that calls it. *)
Theorem missing_timing_rejected (pngs : Gen Png) loop palettesize subrectangles w :
  (∃ e, pngs_to_gif pngs loop None None palettesize subrectangles w = (Raise e, w) ∧
        invalid_argument_kind e = true) ∧
  (∀ game gif_path add_initial_position highlight_last_move orientation size
     coordinates style,
     ∃ e, game_to_gif game gif_path add_initial_position highlight_last_move
            orientation size coordinates style loop None None palettesize
            subrectangles w = (Raise e, w) ∧
          invalid_argument_kind e = true).
Proof.
  split.
  - eexists. unfold pngs_to_gif. rewrite bool_decide_true by done. done.
  - intros. eexists. unfold game_to_gif, pngs_to_gif, mbind, M_bind.
    rewrite bool_decide_true by done. done.
Qed.

(** C5, as the code has it.  With a size that is not positive, a valid
    timing and a writer that opens: when there is at least one position to
    render, the assertion of [board_to_svg] fails on the first one.  That
    happens when the encoder asks for the first frame: the temporary file
    exists and the writer is open by then; no frame is rasterized or
    appended, the writer is left, and the file system is untouched.  The
    pipeline fails with that [AssertionError] (InvalidArgument), unless
    leaving the writer raises, and then with the error of the writer.  When
    there is no position to render, the renderer is never called and the
    run is the same for every size. *)
Theorem size_checked_on_first_frame (g : Game) gif_path add_initial_position
    highlight_last_move orientation size coordinates style loop duration fps
    palettesize subrectangles w :
  (size ≤ 0)%Z →
  let opts := options loop duration fps palettesize subrectangles in
  (add_initial_position = true ∨ mainline_moves g ≠ [] →
   ¬ (duration = None ∧ fps = None) →
   writer_open opts = Ok tt →
   ∃ w' board last_move,
     game_to_gif (Some g) gif_path add_initial_position highlight_last_move
       orientation size coordinates style loop duration fps palettesize
       subrectangles w
     = (match writer_close opts [] with
        | Ok _ => Raise (AssertionError "size of the board must be positive integer")
        | Raise e => Raise e
        end, w') ∧
     events_since w w' =
       [EvTemporaryFile (length (temps w));
        EvGetWriter (length (temps w)) opts;
        EvBoardToSvg board orientation last_move size coordinates style;
        EvWriterClose (length (temps w))] ∧
     temps w' = temps w ++ [match writer_close opts [] with
                            | Ok data => written data
                            | Raise _ => fresh_temp
                            end] ∧
     fs w' = fs w) ∧
  (add_initial_position = false → mainline_moves g = [] →
   render_last_moves (events_since w
     (game_to_gif (Some g) gif_path add_initial_position highlight_last_move
        orientation size coordinates style loop duration fps palettesize
        subrectangles w).2) = [] ∧
   ∀ size',
     game_to_gif (Some g) gif_path add_initial_position highlight_last_move
       orientation size coordinates style loop duration fps palettesize
       subrectangles w
     = game_to_gif (Some g) gif_path add_initial_position highlight_last_move
         orientation size' coordinates style loop duration fps palettesize
         subrectangles w).
Proof.
  intros Hsize opts. split.
  - intros Hsome Htiming Hopen.
    rewrite game_to_gif_closed.
    unfold game_to_gif_outcome, run_options, run_frames. fold opts.
    rewrite bool_decide_false, Hopen by done.
    destruct (yielded (Some g) add_initial_position) as [|[board lm] rest] eqn:Hitems.
    { apply (f_equal length) in Hitems. rewrite yielded_length in Hitems.
      destruct Hsome as [-> | Hmoves]; [cbn in Hitems; lia|].
      destruct (mainline_moves g); [done|cbn in Hitems; lia]. }
    cbn [frames_run]. unfold frame_run. rewrite bool_decide_false by lia.
    destruct (writer_close opts []) as [data|e];
      (eexists _, _, _; split; [reflexivity|]; split; [|done];
       apply events_since_app; reflexivity).
  - intros -> Hmoves.
    assert (yielded (Some g) false = []) as Hitems.
    { unfold yielded, positions. by rewrite Hmoves. }
    split.
    + destruct (game_to_gif (Some g) gif_path false highlight_last_move
                  orientation size coordinates style loop duration fps
                  palettesize subrectangles w) as [r w'] eqn:Hrun.
      apply game_to_gif_renders in Hrun as [Hprefix _]. cbn zeta in Hprefix.
      rewrite Hitems in Hprefix. by apply prefix_nil_inv in Hprefix.
    + intros size'. rewrite !game_to_gif_closed.
      unfold game_to_gif_outcome, run_frames. by rewrite Hitems.
Qed.


(** C7, as the code has it.  [pgn_to_game] checks nothing and raises
    nothing: it hands on what the parser returns.  When the parser returns
    no game the pipeline fails, at a later stage, and the file system is as
    it was: nothing is written at the destination. *)
Theorem no_game_fails_late (pgn : string) gif_path add_initial_position
    highlight_last_move orientation size coordinates style loop duration fps
    palettesize subrectangles w :
  pgn_to_game pgn w = (Ok (read_game pgn), w) ∧
  (read_game pgn = None →
   ∃ e w',
     pgn_to_gif pgn gif_path add_initial_position highlight_last_move
       orientation size coordinates style loop duration fps palettesize
       subrectangles w = (Raise e, w') ∧
     fs w' = fs w).
Proof.
  split; [reflexivity|]. intros Hnone.
  unfold pgn_to_gif, pgn_to_game, mbind, M_bind, mret, M_ret. rewrite Hnone.
  rewrite game_to_gif_closed. unfold game_to_gif_outcome.
  destruct (bool_decide _); [by eexists _, _|].
  destruct (writer_open _) as [[]|e]; [|by eexists _, _].
  pose proof (frames_run_ok_stop highlight_last_move orientation size
    coordinates style (yielded None add_initial_position) (stops None)) as Hstop.
  unfold run_frames. destruct (frames_run _ _ _ _ _ _ _) as [[evs ims] r].
  destruct (writer_close _ ims) as [data|e]; [|by eexists _, _].
  destruct r as [[]|e]; [|by eexists _, _].
  by specialize (Hstop eq_refl).
Qed.

(** C8, as the code has it.  On an open temporary file, when
    [save_gif_temp_file] returns, the parent directory of the destination
    exists, the destination holds the whole content of the temporary file
    and the temporary file is closed; when it raises, the temporary file is
    still open: the release is the last statement and no handler runs it on
    a failure. *)
Theorem output_writer (temp_file : nat) (path : Path) (t : TempFile) w r w' :
  temps w !! temp_file = Some t →
  closed t = false →
  save_gif_temp_file temp_file path w = (r, w') →
  match r with
  | Ok _ =>
      is_dir (fs w') (parent path) = true ∧
      fs w' !! path = Some (File (content t)) ∧
      ∃ t', temps w' !! temp_file = Some t' ∧ closed t' = true
  | Raise e =>
      ∃ t', temps w' !! temp_file = Some t' ∧ closed t' = false
  end.
Proof.
  intros Ht Hopen Hsave.
  destruct (save_gif_temp_file_spec _ _ _ _ _ _ Ht Hopen Hsave) as (_ & _ & Hr).
  destruct r as [[]|e].
  - destruct Hr as (Hdir & Hfile & ->). do 2 (split; [done|]).
    exists (released t). split; [|done].
    apply list_lookup_insert_eq. by eapply lookup_lt_Some.
  - destruct Hr as (t' & ? & ? & _). by exists t'.
Qed.

(** C9, as the code has it.  [parse_bool] follows the allow-list on the
    lowercased text.  In [pgn_to_gif/cli.py] a flag reaches it only if the
    argument parser has found it, as given, among the six tokens: the flag
    is true exactly for [1], [t], [true], false exactly for [0], [f],
    [false], and any other text, another casing of a token included, ends
    the parser with status 2.  In [main.py] a flag is true exactly when its
    text is not empty. *)
Theorem boolean_flags (s : string) (w : World) :
  ((parse_bool s w = (Ok true, w) ↔ lower s ∈ ["1"; "t"; "true"]) ∧
   (parse_bool s w = (Ok false, w) ↔ lower s ∈ ["0"; "f"; "false"]) ∧
   (lower s ∉ ["1"; "t"; "true"; "0"; "f"; "false"] →
    ∃ msg, parse_bool s w = (Raise (ValueError msg), w))) ∧
  ((cli_flag (Some s) w = (Ok true, w) ↔ s ∈ ["1"; "t"; "true"]) ∧
   (cli_flag (Some s) w = (Ok false, w) ↔ s ∈ ["0"; "f"; "false"]) ∧
   (s ∉ ["1"; "t"; "true"; "0"; "f"; "false"] →
    cli_flag (Some s) w = (Raise (SystemExit 2), w))) ∧
  ((main_flag (Some s) = true ↔ s ≠ "") ∧
   (main_flag (Some s) = false ↔ s = "")).
Proof.
  split; [|split].
  - unfold parse_bool, true_values, false_values.
    destruct (bool_decide (lower s ∈ ["1"; "t"; "true"])) eqn:Ht.
    + apply bool_decide_eq_true in Ht. split; [done|]. split.
      * split; [done|]. intros Hf. exfalso. revert Ht Hf.
        rewrite !elem_of_cons, !elem_of_nil. intuition congruence.
      * intros Hn. exfalso. apply Hn. revert Ht.
        rewrite !elem_of_cons, !elem_of_nil. intuition.
    + apply bool_decide_eq_false in Ht.
      destruct (bool_decide (lower s ∈ ["0"; "f"; "false"])) eqn:Hf.
      * apply bool_decide_eq_true in Hf. split; [done|]. split; [done|].
        intros Hn. exfalso. apply Hn. revert Hf.
        rewrite !elem_of_cons, !elem_of_nil. intuition.
      * apply bool_decide_eq_false in Hf. split; [done|]. split; [done|].
        intros _. by eexists.
  - unfold cli_flag, argparse_choices, bool_choices, mbind, M_bind.
    destruct (bool_decide (s ∈ ["1"; "t"; "true"; "0"; "f"; "false"])) eqn:Hc.
    + apply bool_decide_eq_true in Hc.
      rewrite !elem_of_cons, elem_of_nil in Hc.
      destruct Hc as [->|[->|[->|[->|[->|[->|[]]]]]]]; cbn;
        (split; [|split]); try done;
        try (split; [done|]; rewrite !elem_of_cons, elem_of_nil; intuition discriminate);
        try (split; [discriminate|]; rewrite !elem_of_cons, elem_of_nil; intuition discriminate);
        try (split; [|done]; intros _; rewrite !elem_of_cons; intuition);
        try (intros Hn; exfalso; apply Hn; rewrite !elem_of_cons; intuition).
    + apply bool_decide_eq_false in Hc. cbn.
      split; [|split]; [split; [done|]..|done];
        intros Hin; exfalso; apply Hc; revert Hin;
        rewrite !elem_of_cons, !elem_of_nil; intuition.
  - unfold main_flag, argparse_type_bool, py_bool.
    destruct (bool_decide (s = "")) eqn:He.
    + apply bool_decide_eq_true in He. cbn. split; split; done.
    + apply bool_decide_eq_false in He. cbn. split; split; done.
Qed.

(** C10. For a run of [game_to_gif] or [pgn_to_gif] that returns: without a
    [gif_path] the temporary file just encoded is returned, open, and the
    file system is as it was; with a [gif_path] the result is [None], the
    destination holds the content of that temporary file, and the temporary
    file is closed.  In both cases its content is what the writer made of
    the frames appended. *)
Theorem artifact_returned_or_saved gif_path add_initial_position
    highlight_last_move orientation size coordinates style loop duration fps
    palettesize subrectangles w :
  let returned_or_saved (r : option nat) (w' : World) :=
    ∃ t, temps w' !! length (temps w) = Some t ∧
         writer_close (options loop duration fps palettesize subrectangles)
           (appended (events_since w w')) = Ok (content t) ∧
         match gif_path with
         | None => r = Some (length (temps w)) ∧ closed t = false ∧ fs w' = fs w
         | Some path =>
             r = None ∧ closed t = true ∧ fs w' !! path = Some (File (content t))
         end in
  (∀ game r w',
     game_to_gif game gif_path add_initial_position highlight_last_move
       orientation size coordinates style loop duration fps palettesize
       subrectangles w = (Ok r, w') →
     returned_or_saved r w') ∧
  (∀ pgn r w',
     pgn_to_gif pgn gif_path add_initial_position highlight_last_move
       orientation size coordinates style loop duration fps palettesize
       subrectangles w = (Ok r, w') →
     returned_or_saved r w').
Proof.
  intros returned_or_saved.
  assert (∀ game r w',
     game_to_gif game gif_path add_initial_position highlight_last_move
       orientation size coordinates style loop duration fps palettesize
       subrectangles w = (Ok r, w') →
     returned_or_saved r w') as Hgame.
  { intros game r w' Hrun.
    destruct (game_to_gif_ok _ _ _ _ _ _ _ _ _ _ _ _ _ _ _ _ Hrun)
      as (evs & ims & data & Hframes & _ & Hclose & Hend).
    pose proof (game_to_gif_ok_appended _ _ _ _ _ _ _ _ _ _ _ _ _ _ _ _ _ _
      Hrun Hframes) as Happ.
    unfold returned_or_saved. rewrite Happ. cbn zeta in Hend.
    destruct gif_path as [path|].
    - destruct Hend as [-> Hsave].
      eapply save_gif_temp_file_spec in Hsave as (_ & _ & _ & Hfile & Htemps);
        [|apply encoded_lookup|reflexivity].
      exists (released (written data)). rewrite Htemps. split; [|done].
      apply list_lookup_insert_eq. cbn. rewrite length_app. cbn. lia.
    - destruct Hend as [-> ->]. exists (written data).
      split; [apply encoded_lookup|done]. }
  split; [exact Hgame|].
  intros pgn r w'. unfold pgn_to_gif, pgn_to_game, mbind, M_bind, mret, M_ret.
  apply Hgame.
Qed.

End Claims.

(** * Further properties *)

Section Further.
Context `{Libraries}.

(** ** The file system under the output writer *)

(** A file system grown along a path: what was there is there, unchanged,
    and what is new is a directory on the way to the path. *)
Definition grown (path : Path) (f f' : gmap Path FsNode) : Prop :=
  ∀ q, f' !! q = f !! q ∨
       (f !! q = None ∧ f' !! q = Some Dir ∧ q ≠ [] ∧ q `prefix_of` path).

Lemma grown_refl path f : grown path f f.
Proof. intros q. by left. Qed.

Lemma grown_trans path f1 f2 f3 :
  grown path f1 f2 → grown path f2 f3 → grown path f1 f3.
Proof.
  intros H12 H23 q. destruct (H23 q) as [Heq | (Hnone & Hdir & Hq & Hpre)].
  - rewrite Heq. apply H12.
  - destruct (H12 q) as [Heq | (_ & Hdir' & _)]; [|congruence].
    right. rewrite <- Heq. done.
Qed.

Lemma grown_prefix p p' f f' : p `prefix_of` p' → grown p f f' → grown p' f f'.
Proof.
  intros Hpp Hg q. destruct (Hg q) as [Heq | (Hnone & Hdir & Hq & Hpre)];
    [by left|right]. repeat split; try done. by etrans.
Qed.

Lemma os_mkdir_grown p w r w' :
  os_mkdir p w = (r, w') → grown p (fs w) (fs w').
Proof.
  unfold os_mkdir, get, modify, raise, mbind, M_bind. cbn.
  destruct (node_at (fs w) p) as [nd|] eqn:Hnode.
  { intros [= <- <-]. apply grown_refl. }
  destruct (node_at (fs w) (parent p)) as [[|c]|]; intros [= <- <-];
    try apply grown_refl.
  cbn. intros q. destruct (decide (q = p)) as [->|Hne].
  - right. destruct p as [|x p]; [discriminate|]. cbn in Hnode.
    rewrite lookup_insert_eq. done.
  - left. by rewrite lookup_insert_ne.
Qed.

Lemma mkdir_leaf_grown p exist_ok w r w' :
  mkdir_leaf p exist_ok w = (r, w') → grown p (fs w) (fs w').
Proof.
  unfold mkdir_leaf. destruct (os_mkdir p w) as [r1 w1] eqn:Hos.
  apply os_mkdir_grown in Hos. destruct r1 as [[]|e].
  { by intros [= <- <-]. }
  destruct (exist_ok && is_dir (fs w1) p); destruct e; by intros [= <- <-].
Qed.

Lemma mkdir_rev_grown rp :
  ∀ parents exist_ok w r w',
    mkdir_rev rp parents exist_ok w = (r, w') → grown (rev rp) (fs w) (fs w').
Proof.
  induction rp as [|name rparent IH]; intros parents exist_ok w r w';
    cbn [mkdir_rev];
    destruct (os_mkdir _ w) as [r1 w1] eqn:Hos; apply os_mkdir_grown in Hos;
    (destruct r1 as [[]|e]; [by intros [= <- <-]|]).
  - destruct (exist_ok && is_dir (fs w1) (rev [])); destruct e;
      by intros [= <- <-].
  - assert (∀ r0 w0,
      (if exist_ok && is_dir (fs w1) (rev (name :: rparent))
       then (Ok (), w1) else (Raise e, w1)) = (r0, w0) →
      grown (rev (name :: rparent)) (fs w) (fs w0)) as Hother.
    { intros r0 w0. destruct (exist_ok && is_dir _ _); by intros [= <- <-]. }
    destruct e; try apply Hother.
    destruct parents; [|by intros [= <- <-]].
    unfold mbind, M_bind.
    destruct (mkdir_rev rparent true true w1) as [r2 w2] eqn:Hup.
    apply IH in Hup.
    assert (grown (rev (name :: rparent)) (fs w1) (fs w2)) as Hup'.
    { eapply grown_prefix; [|exact Hup]. cbn. by apply prefix_app_r. }
    destruct r2 as [[]|e].
    + intros Hleaf. apply mkdir_leaf_grown in Hleaf.
      eapply grown_trans; [exact Hos|]. by eapply grown_trans.
    + intros [= <- <-]. by eapply grown_trans.
Qed.

Lemma mkdir_grown p parents exist_ok w r w' :
  mkdir p parents exist_ok w = (r, w') → grown p (fs w) (fs w').
Proof.
  unfold mkdir, log, modify, mbind, M_bind. cbn. intros Hrev.
  apply mkdir_rev_grown in Hrev. by rewrite rev_involutive in Hrev.
Qed.

Lemma parent_prefix (p : Path) : parent p `prefix_of` p.
Proof.
  unfold parent. destruct (decide (p = [])) as [->|Hp]; [done|].
  destruct (exists_last Hp) as (q & x & ->). rewrite removelast_last.
  by apply prefix_app_r.
Qed.

(** The temporary file after [seek(0)], and the whole of the output writer
    on an open temporary file. *)
Definition rewound (t : TempFile) : TempFile :=
  {| content := content t; position := 0; closed := false |}.

Lemma save_gif_temp_file_open temp_file path t w :
  temps w !! temp_file = Some t → closed t = false →
  save_gif_temp_file temp_file path w
  = match mkdir (parent path) true true w with
    | (Raise e, w1) => (Raise e, w1)
    | (Ok _, w1) =>
        match node_at (fs w1) path with
        | Some Dir =>
            (Raise IsADirectoryError,
             {| fs := fs w1;
                temps := <[temp_file := rewound t]> (temps w);
                writers := writers w;
                trace := trace w ++ [EvMkdir (parent path); EvOpenWrite path] |})
        | _ =>
            (Ok tt,
             {| fs := <[path := File (content t)]> (fs w1);
                temps := <[temp_file := released t]> (temps w);
                writers := writers w;
                trace := trace w ++ [EvMkdir (parent path); EvOpenWrite path;
                                     EvTempClose temp_file] |})
        end
    end.
Proof.
  intros Ht Hopen. unfold save_gif_temp_file.
  unfold mbind at 1. unfold M_bind at 1.
  destruct (mkdir (parent path) true true w) as [r1 w1] eqn:Hmk.
  destruct (mkdir_spec _ _ _ _ _ _ Hmk) as (Ht1 & Hw1 & Htr1 & Hdir1).
  destruct r1 as [[]|e]; [|reflexivity]. specialize (Hdir1 eq_refl).
  assert (Hlt : (temp_file < length (temps w))%nat) by by eapply lookup_lt_Some.
  unfold temp_seek, open_wb, temp_read, file_write, temp_close, open_temp,
    temp_put, log, modify, get, raise, mbind, M_bind, mret, M_ret.
  cbn. rewrite Ht1, Ht, Hopen. cbn. unfold is_dir in Hdir1.
  destruct (node_at (fs w1) path) as [[|c]|] eqn:Hnode;
    [|
     |destruct (node_at (fs w1) (parent path)) as [[|c]|]; try discriminate];
    cbn; rewrite ?Ht1, ?Hw1, ?Htr1,
      ?list_lookup_insert_eq by (by rewrite ?length_insert); cbn;
    rewrite ?Ht1, ?Hw1, ?Htr1,
      ?list_lookup_insert_eq by (by rewrite ?length_insert); cbn;
    unfold add_trace, set_temps, set_fs; cbn;
    rewrite ?Ht1, ?Hw1, ?Htr1, ?substring_all, ?list_insert_insert_eq,
      ?insert_insert_eq, <- ?app_assoc; reflexivity.
Qed.

(** The output writer on a temporary file that is closed: the directories
    are made, and [seek] raises. *)
Lemma save_gif_temp_file_closed temp_file path t w :
  temps w !! temp_file = Some t → closed t = true →
  save_gif_temp_file temp_file path w
  = match mkdir (parent path) true true w with
    | (Raise e, w1) => (Raise e, w1)
    | (Ok _, w1) => (Raise closed_file, w1)
    end.
Proof.
  intros Ht Hclosed. unfold save_gif_temp_file.
  unfold mbind at 1. unfold M_bind at 1.
  destruct (mkdir (parent path) true true w) as [r1 w1] eqn:Hmk.
  destruct (mkdir_spec _ _ _ _ _ _ Hmk) as (Ht1 & _).
  destruct r1 as [[]|e]; [|reflexivity].
  unfold temp_seek, open_temp, get, raise, mbind, M_bind. cbn.
  by rewrite Ht1, Ht, Hclosed.
Qed.

Lemma not_prefix_of_parent (p : Path) : p ≠ [] → ¬ p `prefix_of` parent p.
Proof.
  intros Hp Hpre. apply prefix_length in Hpre. unfold parent in Hpre.
  destruct (exists_last Hp) as (q & x & ->).
  rewrite removelast_last, length_app in Hpre. cbn in Hpre. lia.
Qed.

(** X1. Whatever the output writer does, returning or raising, it changes
    no entry of the file system but the destination: an entry that was
    there is kept as it was, and the only new entries are directories on
    the way to the destination. *)
Theorem output_writer_keeps_the_rest (temp_file : nat) (path : Path)
    (t : TempFile) w r w' :
  temps w !! temp_file = Some t →
  save_gif_temp_file temp_file path w = (r, w') →
  ∀ q, q ≠ path →
    fs w' !! q = fs w !! q ∨
    (fs w !! q = None ∧ fs w' !! q = Some Dir ∧ q `prefix_of` path).
Proof.
  intros Ht Hsave q Hq.
  assert (∀ w1 r1, mkdir (parent path) true true w = (r1, w1) →
    fs w1 !! q = fs w !! q ∨
    (fs w !! q = None ∧ fs w1 !! q = Some Dir ∧ q `prefix_of` path)) as Hmk.
  { intros w1 r1 Hmk. apply mkdir_grown in Hmk.
    destruct (Hmk q) as [Heq | (Hnone & Hdir & _ & Hpre)]; [by left|right].
    repeat split; try done. etrans; [exact Hpre|apply parent_prefix]. }
  destruct (closed t) eqn:Hclosed.
  - rewrite (save_gif_temp_file_closed _ _ _ _ Ht Hclosed) in Hsave.
    destruct (mkdir (parent path) true true w) as [[[]|e] w1] eqn:Hrun;
      injection Hsave as <- <-; by eapply Hmk.
  - rewrite (save_gif_temp_file_open _ _ _ _ Ht Hclosed) in Hsave.
    destruct (mkdir (parent path) true true w) as [[[]|e] w1] eqn:Hrun.
    + specialize (Hmk _ _ eq_refl).
      destruct (node_at (fs w1) path) as [[|c]|]; injection Hsave as <- <-;
        cbn; rewrite ?lookup_insert_ne by done; exact Hmk.
    + injection Hsave as <- <-. by eapply Hmk.
Qed.

(** X2. When the parent directory of the destination exists and the
    destination is not a directory, the output writer returns on an open
    temporary file, and the file system afterwards is the one before with
    the destination holding the content of the temporary file: a file that
    was there is replaced, not appended to. *)
Theorem output_writer_replaces (temp_file : nat) (path : Path) (t : TempFile) w :
  temps w !! temp_file = Some t →
  closed t = false →
  is_dir (fs w) (parent path) = true →
  node_at (fs w) path ≠ Some Dir →
  ∃ w', save_gif_temp_file temp_file path w = (Ok tt, w') ∧
        fs w' = <[path := File (content t)]> (fs w) ∧
        temps w' = <[temp_file := released t]> (temps w).
Proof.
  intros Ht Hopen Hdir Hnot.
  rewrite (save_gif_temp_file_open _ _ _ _ Ht Hopen), (mkdir_existing _ _ Hdir).
  cbn. destruct (node_at (fs w) path) as [[|c]|]; [done|by eexists..].
Qed.

(** X3. On a temporary file that is already closed the output writer
    never returns: it raises, the destination is as it was, and so are the
    temporary files. *)
Theorem output_writer_needs_an_open_file (temp_file : nat) (path : Path)
    (t : TempFile) w r w' :
  temps w !! temp_file = Some t →
  closed t = true →
  save_gif_temp_file temp_file path w = (r, w') →
  is_ok r = false ∧ fs w' !! path = fs w !! path ∧ temps w' = temps w.
Proof.
  intros Ht Hclosed Hsave.
  rewrite (save_gif_temp_file_closed _ _ _ _ Ht Hclosed) in Hsave.
  destruct (mkdir (parent path) true true w) as [r1 w1] eqn:Hmk.
  destruct (mkdir_spec _ _ _ _ _ _ Hmk) as (Ht1 & _).
  apply mkdir_grown in Hmk.
  assert (fs w1 !! path = fs w !! path) as Hfs.
  { destruct (Hmk path) as [Heq | (_ & _ & Hp & Hpre)]; [done|].
    by apply not_prefix_of_parent in Hpre. }
  destruct r1 as [[]|e]; injection Hsave as <- <-; done.
Qed.

(** ** The frames of a run that returns *)

(** The four calls a position goes through, in their order, with the
    raster [pi.1] and the decoded frame [pi.2] it gives. *)
Definition frame_calls (highlight_last_move : bool) (orientation : Color)
    (size : Z) (coordinates : bool) (style : option string)
    (item : Board * option Move) (pi : Png * Image) : list Event :=
  let lm := if highlight_last_move then item.2 else None in
  [EvBoardToSvg item.1 orientation lm size coordinates style;
   EvSvg2Png (chess_svg_board item.1 orientation lm size coordinates style);
   EvImread pi.1;
   EvAppendData pi.2].

(** A position goes through: the size is positive, its rendering
    rasterizes to [pi.1] and that decodes to [pi.2]. *)
Definition goes_through (highlight_last_move : bool) (orientation : Color)
    (size : Z) (coordinates : bool) (style : option string)
    (item : Board * option Move) (pi : Png * Image) : Prop :=
  (size > 0)%Z ∧
  svg2png (chess_svg_board item.1 orientation
             (if highlight_last_move then item.2 else None)
             size coordinates style) = Ok pi.1 ∧
  imread pi.1 = Ok pi.2.

Lemma frames_run_ok_calls hl o size c st items stop :
  is_ok (frames_run hl o size c st items stop).2 = true →
  ∃ rendered : list (Png * Image),
    Forall2 (goes_through hl o size c st) items rendered ∧
    (frames_run hl o size c st items stop).1.1
      = concat (zip_with (frame_calls hl o size c st) items rendered) ∧
    (frames_run hl o size c st items stop).1.2 = rendered.*2.
Proof.
  induction items as [|item rest IH]; [by exists []|].
  cbn [frames_run]. unfold frame_run.
  destruct (bool_decide (size > 0)%Z) eqn:Hsize; [|discriminate].
  apply bool_decide_eq_true in Hsize.
  destruct (svg2png _) as [png|e] eqn:Hpng; [|discriminate].
  destruct (imread png) as [im|e] eqn:Him; [|discriminate].
  destruct (frames_run hl o size c st rest stop) as [[evs ims] r]. cbn in *.
  intros Hok. destruct (IH Hok) as (rendered & Hall & -> & ->).
  exists ((png, im) :: rendered). split; [|done].
  constructor; [|done]. done.
Qed.

Lemma gen_to_list_raises {A} (items : list A) e w :
  gen_to_list (pure_gen items (Some e)) w = (Raise e, w).
Proof.
  unfold pure_gen. induction items as [|x l IH]; [reflexivity|].
  cbn. unfold mbind, M_bind, mret, M_ret in *. cbn. by rewrite IH.
Qed.

Lemma gen_to_list_yielded game b (l : list (Board * option Move)) w0 :
  gen_to_list (game_to_boards_and_last_moves game b) w0 = (Ok l, w0) →
  l = yielded game b ∧ stops game = None.
Proof.
  rewrite game_to_boards_and_last_moves_shape. destruct game as [g|]; cbn [stops].
  - rewrite gen_to_list_pure. by intros [= <-].
  - by rewrite gen_to_list_raises.
Qed.

(** ** The pipeline: what a run leaves behind *)

Section Runs.
Variables (game : option Game) (gif_path : option Path)
  (add_initial_position highlight_last_move : bool) (orientation : Color)
  (size : Z) (coordinates : bool) (style : option string) (loop : Z)
  (duration fps : option float) (palettesize : Z) (subrectangles : bool).

(** X4. Giving a [gif_path] is the same as asking for the artifact and
    handing it to the output writer oneself; the result is then [None]. *)
Theorem saving_is_returning_then_saving (path : Path) w :
  game_to_gif game (Some path) add_initial_position highlight_last_move
    orientation size coordinates style loop duration fps palettesize
    subrectangles w
  = match game_to_gif game None add_initial_position highlight_last_move
    orientation size coordinates style loop duration fps palettesize
    subrectangles w with
    | (Ok (Some temp_file), w1) =>
        match save_gif_temp_file temp_file path w1 with
        | (Ok _, w2) => (Ok None, w2)
        | (Raise e, w2) => (Raise e, w2)
        end
    | (Ok None, w1) => (Ok None, w1)
    | (Raise e, w1) => (Raise e, w1)
    end.
Proof.
  rewrite !game_to_gif_closed. unfold game_to_gif_outcome.
  destruct (bool_decide (duration = None ∧ fps = None)); [done|].
  destruct (writer_open _) as [[]|e]; [|done].
  destruct (run_frames _ _ _ _ _ _ _) as [[evs ims] r].
  destruct (writer_close _ ims) as [data|e]; [|done].
  by destruct r as [[]|e].
Qed.

(** X5. A run never touches the temporary files that were there before
    it: the one it makes is new, and the others are as they were, whether
    the run returns or raises. *)
Theorem earlier_temporary_files_untouched w r w' :
  game_to_gif game gif_path add_initial_position highlight_last_move
    orientation size coordinates style loop duration fps palettesize
    subrectangles w = (r, w') →
  take (length (temps w)) (temps w') = temps w.
Proof.
  rewrite game_to_gif_closed. unfold game_to_gif_outcome.
  destruct (bool_decide (duration = None ∧ fps = None)).
  { intros [= <- <-]. by apply take_ge. }
  destruct (writer_open _) as [[]|e];
    [|intros [= <- <-]; apply take_app_length].
  destruct (run_frames _ _ _ _ _ _ _) as [[evs ims] rr].
  destruct (writer_close _ ims) as [data|e];
    [|intros [= <- <-]; apply take_app_length].
  destruct rr as [[]|e]; [|intros [= <- <-]; apply take_app_length].
  destruct gif_path as [path|]; [|intros [= <- <-]; apply take_app_length].
  rewrite (save_gif_temp_file_open _ _ (written data)
             _ (encoded_lookup _ _ _ _ _) eq_refl).
  destruct (mkdir _ _ _ _) as [r1 w1] eqn:Hmk.
  destruct (mkdir_spec _ _ _ _ _ _ Hmk) as (Ht1 & _).
  destruct r1 as [[]|e].
  - destruct (node_at (fs w1) path) as [[|c]|]; intros [= <- <-]; cbn;
      rewrite take_insert_ge by done; apply take_app_length.
  - intros [= <- <-]. rewrite Ht1. apply take_app_length.
Qed.

(** X6. A run that raises after the timing check leaves the temporary
    file it has made open: nothing closes it on a failure, in the encoder
    or in the output writer. *)
Theorem temporary_file_leaked_on_failure w e w' :
  ¬ (duration = None ∧ fps = None) →
  game_to_gif game gif_path add_initial_position highlight_last_move
    orientation size coordinates style loop duration fps palettesize
    subrectangles w = (Raise e, w') →
  ∃ t, temps w' !! length (temps w) = Some t ∧ closed t = false.
Proof.
  intros Htiming. rewrite game_to_gif_closed. unfold game_to_gif_outcome.
  rewrite bool_decide_false by done.
  destruct (writer_open _) as [[]|e1].
  2:{ intros [= <- <-]. exists fresh_temp. split; [apply lookup_snoc|done]. }
  destruct (run_frames _ _ _ _ _ _ _) as [[evs ims] rr].
  destruct (writer_close _ ims) as [data|e1].
  2:{ intros [= <- <-]. exists fresh_temp. split; [apply lookup_snoc|done]. }
  destruct rr as [[]|e1].
  2:{ intros [= <- <-]. exists (written data). split; [apply lookup_snoc|done]. }
  destruct gif_path as [path|]; [|done].
  destruct (save_gif_temp_file _ _ _) as [[[]|e1] w2] eqn:Hsave; [done|].
  intros [= <- <-].
  eapply save_gif_temp_file_spec in Hsave as (_ & _ & t' & Ht' & Hopen & _);
    [|apply encoded_lookup|reflexivity].
  by exists t'.
Qed.

(** X7. Without a [gif_path] a run never changes the file system,
    whatever its outcome. *)
Theorem nothing_written_without_a_path w r w' :
  game_to_gif game None add_initial_position highlight_last_move
    orientation size coordinates style loop duration fps palettesize
    subrectangles w = (r, w') → fs w' = fs w.
Proof.
  rewrite game_to_gif_closed. unfold game_to_gif_outcome.
  destruct (bool_decide (duration = None ∧ fps = None)); [by intros [= <- <-]|].
  destruct (writer_open _) as [[]|e]; [|by intros [= <- <-]].
  destruct (run_frames _ _ _ _ _ _ _) as [[evs ims] rr].
  destruct (writer_close _ ims) as [data|e]; [|by intros [= <- <-]].
  destruct rr as [[]|e]; by intros [= <- <-].
Qed.

(** X8. With a [gif_path], the file system is only touched once every
    position of the game has been rendered, decoded and appended, and the
    writer has been left: a run that fails while encoding leaves no
    directory and no file behind. *)
Theorem no_output_before_the_last_frame (path : Path) w r w' :
  game_to_gif game (Some path) add_initial_position highlight_last_move
    orientation size coordinates style loop duration fps palettesize
    subrectangles w = (r, w') →
  fs w' ≠ fs w →
  ∃ g, game = Some g ∧
       length (appended (events_since w w'))
       = (length (mainline_moves g) + (if add_initial_position then 1 else 0))%nat.
Proof.
  rewrite game_to_gif_closed. unfold game_to_gif_outcome.
  destruct (bool_decide (duration = None ∧ fps = None)); [by intros [= <- <-]|].
  destruct (writer_open _) as [[]|e]; [|by intros [= <- <-]].
  pose proof (frames_run_appended highlight_last_move orientation size
    coordinates style (yielded game add_initial_position) (stops game)) as Happ.
  pose proof (frames_run_ok_length highlight_last_move orientation size
    coordinates style (yielded game add_initial_position) (stops game)) as Hlen.
  pose proof (frames_run_ok_stop highlight_last_move orientation size
    coordinates style (yielded game add_initial_position) (stops game)) as Hstop.
  unfold run_frames.
  destruct (frames_run _ _ _ _ _ _ _) as [[evs ims] rr]. cbn [fst snd] in *.
  destruct (writer_close _ ims) as [data|e]; [|by intros [= <- <-]].
  destruct rr as [[]|e]; [|by intros [= <- <-]].
  specialize (Hlen eq_refl). specialize (Hstop eq_refl).
  destruct game as [g|]; [|discriminate].
  destruct (save_gif_temp_file _ _ _) as [r2 w2] eqn:Hsave.
  eapply save_gif_temp_file_spec in Hsave as (_ & (tail & Htrace & Hquiet & _) & _);
    [|apply encoded_lookup|reflexivity].
  intros Hrun _. exists g. split; [done|].
  assert (w' = w2) as -> by (by destruct r2 as [[]|e]; injection Hrun).
  rewrite <- yielded_length, <- Hlen, <- Happ. f_equal.
  erewrite events_since_app;
    [|rewrite Htrace, encoded_trace, <- !app_assoc; reflexivity].
  unfold appended in *. rewrite !omap_app, Hquiet. cbn. by rewrite app_nil_r.
Qed.

(** X9. Once the writer has been opened it is left, on every path: the
    call that leaves it is in the trace of the run, and no frame is
    appended after it. *)
Theorem writer_always_left w r w' :
  ¬ (duration = None ∧ fps = None) →
  writer_open (options loop duration fps palettesize subrectangles) = Ok tt →
  game_to_gif game gif_path add_initial_position highlight_last_move
    orientation size coordinates style loop duration fps palettesize
    subrectangles w = (r, w') →
  ∃ before after,
    events_since w w' = before ++ [EvWriterClose (length (temps w))] ++ after ∧
    appended after = [].
Proof.
  intros Htiming Hopen. rewrite game_to_gif_closed.
  unfold game_to_gif_outcome, run_options.
  rewrite bool_decide_false, Hopen by done.
  destruct (run_frames _ _ _ _ _ _ _) as [[evs ims] rr].
  assert (∀ t, ∃ before after,
    events_since w (encoded w (options loop duration fps palettesize
                                 subrectangles) evs ims t)
    = before ++ [EvWriterClose (length (temps w))] ++ after ∧
    appended after = []) as Hencoded.
  { intros t. eexists (_ :: _ :: evs), []. split; [|done].
    apply events_since_app. rewrite encoded_trace. reflexivity. }
  destruct (writer_close _ ims) as [data|e]; [|intros [= <- <-]; apply Hencoded].
  destruct rr as [[]|e]; [|intros [= <- <-]; apply Hencoded].
  destruct gif_path as [path|]; [|intros [= <- <-]; apply Hencoded].
  destruct (save_gif_temp_file _ _ _) as [r2 w2] eqn:Hsave.
  eapply save_gif_temp_file_spec in Hsave as (_ & (tail & Htrace & Hquiet & _) & _);
    [|apply encoded_lookup|reflexivity].
  intros Hrun.
  assert (w' = w2) as -> by (by destruct r2 as [[]|e]; injection Hrun).
  eexists (_ :: _ :: evs), tail. split; [|done].
  apply events_since_app. rewrite Htrace, encoded_trace, <- !app_assoc.
  reflexivity.
Qed.

(** X10. In a run that returns, the frames handed to the writer are, one
    for one and in order, the generator's positions rendered with the run's
    options (the last move dropped when highlighting is off), rasterized and
    decoded; and the size was positive if there was any frame at all. *)
Theorem frames_are_the_rendered_positions (l : list (Board * option Move))
    w0 w r w' :
  gen_to_list (game_to_boards_and_last_moves game add_initial_position) w0
    = (Ok l, w0) →
  game_to_gif game gif_path add_initial_position highlight_last_move
    orientation size coordinates style loop duration fps palettesize
    subrectangles w = (Ok r, w') →
  Forall2
    (λ item im, ∃ png,
       (size > 0)%Z ∧
       svg2png (chess_svg_board item.1 orientation
                  (if highlight_last_move then item.2 else None)
                  size coordinates style) = Ok png ∧
       imread png = Ok im)
    l (appended (events_since w w')).
Proof.
  intros Hgen Hrun. apply gen_to_list_yielded in Hgen as [-> _].
  destruct (game_to_gif_ok _ _ _ _ _ _ _ _ _ _ _ _ _ _ _ _ Hrun)
    as (evs & ims & data & Hframes & _).
  rewrite (game_to_gif_ok_appended _ _ _ _ _ _ _ _ _ _ _ _ _ _ _ _ _ _
             Hrun Hframes).
  pose proof (frames_run_ok_calls highlight_last_move orientation size
    coordinates style (yielded game add_initial_position) (stops game))
    as Hcalls.
  unfold run_frames in Hframes. rewrite Hframes in Hcalls.
  cbn [fst snd] in Hcalls.
  destruct (Hcalls eq_refl) as (rendered & Hall & _ & ->).
  apply Forall2_fmap_r. eapply Forall2_impl; [exact Hall|].
  intros item [png im] (? & ? & ?). by exists png.
Qed.

(** X11. A run that returns the artifact has made its calls in this
    order: the temporary file, the writer, then for each position in turn
    its rendering, its rasterizing, its decoding and its appending, and
    last the leaving of the writer.  No position is rendered before the
    one before it has been appended. *)
Theorem one_frame_at_a_time (l : list (Board * option Move)) w0 w r w' :
  gen_to_list (game_to_boards_and_last_moves game add_initial_position) w0
    = (Ok l, w0) →
  game_to_gif game None add_initial_position highlight_last_move
    orientation size coordinates style loop duration fps palettesize
    subrectangles w = (Ok r, w') →
  ∃ rendered : list (Png * Image),
    length rendered = length l ∧
    events_since w w'
    = [EvTemporaryFile (length (temps w));
       EvGetWriter (length (temps w))
         (options loop duration fps palettesize subrectangles)] ++
      concat (zip_with (frame_calls highlight_last_move orientation size
                          coordinates style) l rendered) ++
      [EvWriterClose (length (temps w))].
Proof.
  intros Hgen Hrun. apply gen_to_list_yielded in Hgen as [-> _].
  destruct (game_to_gif_ok _ _ _ _ _ _ _ _ _ _ _ _ _ _ _ _ Hrun)
    as (evs & ims & data & Hframes & _ & _ & _ & ->).
  pose proof (frames_run_ok_calls highlight_last_move orientation size
    coordinates style (yielded game add_initial_position) (stops game))
    as Hcalls.
  unfold run_frames in Hframes. rewrite Hframes in Hcalls.
  cbn [fst snd] in Hcalls.
  destruct (Hcalls eq_refl) as (rendered & Hall & -> & _).
  exists rendered. split; [symmetry; by eapply Forall2_length|].
  apply events_since_app, encoded_trace.
Qed.

End Runs.

(** ** The game and the text *)

(** X12. Only the starting position of the game and its mainline moves
    reach the GIF: two games that agree on them, whatever their side
    variations, give the same sequence of positions and the same run. *)
Theorem only_the_mainline_matters (g1 g2 : Game) gif_path add_initial_position
    highlight_last_move orientation size coordinates style loop duration fps
    palettesize subrectangles w :
  game_board g1 = game_board g2 →
  mainline_moves g1 = mainline_moves g2 →
  gen_to_list (game_to_boards_and_last_moves (Some g1) add_initial_position) w
    = gen_to_list (game_to_boards_and_last_moves (Some g2) add_initial_position) w ∧
  game_to_gif (Some g1) gif_path add_initial_position highlight_last_move
    orientation size coordinates style loop duration fps palettesize
    subrectangles w
  = game_to_gif (Some g2) gif_path add_initial_position highlight_last_move
      orientation size coordinates style loop duration fps palettesize
      subrectangles w.
Proof.
  intros Hboard Hmoves.
  assert (yielded (Some g1) add_initial_position
          = yielded (Some g2) add_initial_position) as Hsame.
  { unfold yielded, positions. by rewrite Hboard, Hmoves. }
  split.
  - by rewrite !game_to_boards_and_last_moves_shape, Hsame.
  - rewrite !game_to_gif_closed. unfold game_to_gif_outcome, run_frames.
    by rewrite Hsame.
Qed.

(** X13. Text in which the parser finds no game (the empty text), with the
    initial position asked for and everything else in order: the starting
    position is rendered and appended first, and only then does the run
    fail, with the [AttributeError] of the missing game.  The one-frame
    temporary file stays behind, open; the file system is untouched. *)
Theorem no_game_noticed_after_the_first_frame (pgn : string) gif_path
    highlight_last_move orientation size coordinates style loop duration fps
    palettesize subrectangles w png im data :
  read_game pgn = None →
  (size > 0)%Z →
  svg2png (chess_svg_board chess_Board orientation None size coordinates style)
    = Ok png →
  imread png = Ok im →
  ¬ (duration = None ∧ fps = None) →
  writer_open (options loop duration fps palettesize subrectangles) = Ok tt →
  writer_close (options loop duration fps palettesize subrectangles) [im]
    = Ok data →
  ∃ w',
    pgn_to_gif pgn gif_path true highlight_last_move orientation size
      coordinates style loop duration fps palettesize subrectangles w
    = (Raise (AttributeError "'NoneType' object has no attribute 'mainline_moves'"),
       w') ∧
    appended (events_since w w') = [im] ∧
    temps w' = temps w ++ [written data] ∧
    fs w' = fs w.
Proof.
  intros Hnone Hsize Hpng Him Htiming Hopen Hclose.
  unfold pgn_to_gif, pgn_to_game, mbind, M_bind, mret, M_ret. rewrite Hnone.
  rewrite game_to_gif_closed.
  unfold game_to_gif_outcome, run_options, run_frames.
  rewrite bool_decide_false, Hopen by done.
  cbn [yielded stops app frames_run]. unfold frame_run. cbn [fst snd].
  rewrite bool_decide_true by done.
  assert ((if highlight_last_move then @None Move else None) = None) as ->
    by by destruct highlight_last_move.
  rewrite Hpng, Him, Hclose. eexists. split; [reflexivity|].
  split; [|done]. erewrite events_since_app by apply encoded_trace. done.
Qed.

(** ** The encoder on a list of rasters *)

(** What decoding and appending a list of rasters records and appends, up
    to the first raster that does not decode. *)
Fixpoint decode_run (pngs : list Png) : list Event * list Image * Result unit :=
  match pngs with
  | [] => ([], [], Ok tt)
  | png :: rest =>
      match imread png with
      | Raise e => ([EvImread png], [], Raise e)
      | Ok im =>
          let '(evs, ims, r) := decode_run rest in
          (EvImread png :: EvAppendData im :: evs, im :: ims, r)
      end
  end.

(** The rasters handed to the decoder. *)
Definition decoded (evs : list Event) : list Png :=
  omap (λ ev, match ev with EvImread png => Some png | _ => None end) evs.

Lemma decode_step writer png (w : World) :
  (im ← imageio_imread png; append_data writer im) w
  = match imread png with
    | Ok im => (Ok tt, fed writer [EvImread png; EvAppendData im] [im] w)
    | Raise e => (Raise e, add_trace [EvImread png] w)
    end.
Proof.
  unfold imageio_imread, append_data, log, modify, lift, get, mbind, M_bind.
  cbn. destruct (imread png) as [im|e]; [|reflexivity].
  unfold fed, set_writers, add_trace. cbn. by rewrite <- app_assoc.
Qed.

Lemma for_each_list writer (pngs : list Png) :
  ∀ w,
    for_each (mret <$> pngs)
      (λ png, im ← imageio_imread png; append_data writer im) w
    = let '(evs, ims, r) := decode_run pngs in (r, fed writer evs ims w).
Proof.
  induction pngs as [|png rest IH]; intros w.
  - cbn. by rewrite fed_nil, add_trace_nil.
  - cbn [fmap list_fmap for_each decode_run].
    pose proof (decode_step writer png w) as Hstep.
    unfold mbind at 1 2. unfold M_bind at 1 2.
    change ((mret png : M Png) w) with (Ok png, w). cbn iota beta.
    set (c := (imageio_imread png ≫= λ im, append_data writer im) w) in *.
    destruct (imread png) as [im|e]; rewrite Hstep.
    + change (list_fmap Png (M Png) mret rest) with (mret <$> rest).
      rewrite IH. destruct (decode_run rest) as [[evs ims] r].
      by rewrite fed_fed.
    + by rewrite fed_nil.
Qed.


Lemma pngs_to_gif_list (pngs : list Png) loop duration fps palettesize
    subrectangles w :
  ¬ (duration = None ∧ fps = None) →
  pngs_to_gif (mret <$> pngs) loop duration fps palettesize subrectangles w
  = let opts := options loop duration fps palettesize subrectangles in
    match writer_open opts with
    | Raise e => (Raise e, refused w opts)
    | Ok _ =>
        let '(evs, ims, r) := decode_run pngs in
        match writer_close opts ims with
        | Raise e => (Raise e, encoded w opts evs ims fresh_temp)
        | Ok data =>
            (match r with Ok _ => Ok (length (temps w)) | Raise e => Raise e end,
             encoded w opts evs ims (written data))
        end
    end.
Proof.
  intros Htiming. unfold pngs_to_gif. rewrite bool_decide_false by done.
  fold (options loop duration fps palettesize subrectangles).
  set (opts := options _ _ _ _ _).
  pose proof (for_each_list (length (writers w)) pngs) as Hloop.
  set (feed := for_each _) in *.
  unfold TemporaryFile, get_writer, finally, writer_exit, temp_write, open_temp,
    temp_put, log, modify, lift, get, raise, mbind, M_bind, mret, M_ret.
  cbn. destruct (writer_open opts) as [[]|e];
    [|unfold refused, add_trace, set_temps; cbn; by rewrite <- app_assoc].
  cbn. rewrite Hloop. destruct (decode_run pngs) as [[evs ims] r].
  unfold fed, add_trace, set_temps, set_writers. cbn.
  rewrite alter_snoc, lookup_snoc. cbn. rewrite lookup_snoc. cbn.
  rewrite <- !app_assoc. cbn [app].
  destruct (writer_close opts ims) as [data|e]; [|reflexivity].
  cbn. rewrite insert_snoc. destruct r as [[]|e]; reflexivity.
Qed.

Lemma decode_run_all (pngs : list Png) (ims : list Image) :
  Forall2 (λ png im, imread png = Ok im) pngs ims →
  ∃ evs, decode_run pngs = (evs, ims, Ok tt) ∧
         appended evs = ims ∧ decoded evs = pngs.
Proof.
  induction 1 as [|png im pngs ims Him _ (evs & Hrun & Happ & Hdec)].
  - by exists [].
  - cbn [decode_run app]. rewrite Him, Hrun. eexists. split; [reflexivity|].
    unfold appended, decoded in *. cbn. by rewrite Happ, Hdec.
Qed.

Lemma decode_run_stops (good : list Png) (ims : list Image) bad rest e :
  Forall2 (λ png im, imread png = Ok im) good ims →
  imread bad = Raise e →
  ∃ evs, decode_run (good ++ bad :: rest) = (evs, ims, Raise e) ∧
         appended evs = ims ∧ decoded evs = good ++ [bad].
Proof.
  intros Hgood Hbad.
  induction Hgood as [|png im pngs ims Him _ (evs & Hrun & Happ & Hdec)].
  - cbn [decode_run app]. rewrite Hbad. by eexists.
  - cbn [decode_run app]. rewrite Him, Hrun. eexists. split; [reflexivity|].
    unfold appended, decoded in *. cbn. by rewrite Happ, Hdec.
Qed.

(** X14. [pngs_to_gif] on a list of rasters that all decode, with a valid
    timing and a writer that opens and closes: it returns a new temporary
    file, open, that holds what the writer made of the decoded frames in
    the order of the list; every raster was decoded once, in order, and the
    file system is untouched. *)
Theorem encoder_on_a_list (pngs : list Png) (ims : list Image) loop duration
    fps palettesize subrectangles w data :
  ¬ (duration = None ∧ fps = None) →
  writer_open (options loop duration fps palettesize subrectangles) = Ok tt →
  Forall2 (λ png im, imread png = Ok im) pngs ims →
  writer_close (options loop duration fps palettesize subrectangles) ims
    = Ok data →
  ∃ w',
    pngs_to_gif (mret <$> pngs) loop duration fps palettesize subrectangles w
      = (Ok (length (temps w)), w') ∧
    temps w' = temps w ++ [written data] ∧
    fs w' = fs w ∧
    appended (events_since w w') = ims ∧
    decoded (events_since w w') = pngs.
Proof.
  intros Htiming Hopen Hall Hclose.
  rewrite pngs_to_gif_list by done. cbn zeta. rewrite Hopen.
  destruct (decode_run_all _ _ Hall) as (evs & -> & Happ & Hdec).
  rewrite Hclose. eexists. split; [reflexivity|]. do 2 (split; [done|]).
  erewrite events_since_app by apply encoded_trace.
  unfold appended, decoded in *. rewrite !omap_app, Happ, Hdec. cbn.
  by rewrite !app_nil_r.
Qed.

(** X15. With a valid timing and a writer that opens, [pngs_to_gif]
    stops at the first raster that does not decode: the rasters after it
    are never decoded, the writer is left with exactly the frames before
    it, and the new temporary file stays behind, open.  The error raised is
    the decoder's, unless leaving the writer raises, and then it is the
    writer's. *)
Theorem encoder_stops_at_the_first_bad_raster (good : list Png)
    (ims : list Image) bad rest e loop duration fps palettesize subrectangles
    w :
  ¬ (duration = None ∧ fps = None) →
  writer_open (options loop duration fps palettesize subrectangles) = Ok tt →
  Forall2 (λ png im, imread png = Ok im) good ims →
  imread bad = Raise e →
  ∃ w' t,
    pngs_to_gif (mret <$> (good ++ bad :: rest)) loop duration fps palettesize
      subrectangles w
    = (match writer_close (options loop duration fps palettesize subrectangles)
               ims with
       | Ok _ => Raise e
       | Raise e' => Raise e'
       end, w') ∧
    temps w' = temps w ++ [t] ∧ closed t = false ∧
    (∀ data,
       writer_close (options loop duration fps palettesize subrectangles) ims
         = Ok data → content t = data) ∧
    appended (events_since w w') = ims ∧
    decoded (events_since w w') = good ++ [bad].
Proof.
  intros Htiming Hopen Hgood Hbad.
  rewrite pngs_to_gif_list by done. cbn zeta. rewrite Hopen.
  destruct (decode_run_stops _ _ _ rest _ Hgood Hbad) as (evs & -> & Happ & Hdec).
  assert (∀ t, appended (events_since w
                 (encoded w (options loop duration fps palettesize subrectangles)
                    evs ims t)) = ims ∧
               decoded (events_since w
                 (encoded w (options loop duration fps palettesize subrectangles)
                    evs ims t)) = good ++ [bad]) as Htrace.
  { intros t. erewrite events_since_app by apply encoded_trace.
    unfold appended, decoded in *. rewrite !omap_app, Happ, Hdec. cbn.
    by rewrite !app_nil_r. }
  destruct (writer_close _ ims) as [data|e'].
  - exists (encoded w (options loop duration fps palettesize subrectangles)
              evs ims (written data)), (written data).
    split; [done|]. do 2 (split; [done|]). split; [by intros ? [= <-]|].
    apply Htrace.
  - exists (encoded w (options loop duration fps palettesize subrectangles)
              evs ims fresh_temp), fresh_temp.
    split; [done|]. do 2 (split; [done|]). split; [done|]. apply Htrace.
Qed.

(** ** The command line *)

(** X16. [parse_orientation] takes the two names as they are written, in
    lower case: it gives white exactly for [white], black exactly for
    [black], and raises a [ValueError] for any other text, without touching
    the world. *)
Theorem orientation_names (s : string) (w : World) :
  (parse_orientation s w = (Ok WHITE, w) ↔ s = "white") ∧
  (parse_orientation s w = (Ok BLACK, w) ↔ s = "black") ∧
  (s ≠ "white" → s ≠ "black" →
   ∃ msg, parse_orientation s w = (Raise (ValueError msg), w)).
Proof.
  unfold parse_orientation.
  destruct (bool_decide (s = "white")) eqn:Hw.
  { apply bool_decide_eq_true in Hw as ->. repeat split; done. }
  apply bool_decide_eq_false in Hw.
  destruct (bool_decide (s = "black")) eqn:Hb.
  { apply bool_decide_eq_true in Hb as ->. repeat split; done. }
  apply bool_decide_eq_false in Hb. repeat split; try done.
  intros _ _. by eexists.
Qed.

(** An argument that the parser accepts: not given, or one of the choices. *)
Definition valid_choice (choices : list string) (given : option string) : Prop :=
  match given with
  | None => True
  | Some s => s ∈ choices
  end.

Definition valid_argv (argv : Argv) : Prop :=
  valid_choice bool_choices (arg_add_initial_position argv) ∧
  valid_choice bool_choices (arg_highlight_last_move argv) ∧
  valid_choice ["white"; "black"] (arg_orientation argv) ∧
  valid_choice bool_choices (arg_coordinates argv) ∧
  valid_choice bool_choices (arg_subrectangles argv).

(** The value of an accepted boolean flag of [pgn_to_gif/cli.py], and the
    colour of an accepted orientation. *)
Definition flag_on (given : option string) : bool :=
  match given with
  | None => true
  | Some s => bool_decide (s ∈ ["1"; "t"; "true"])
  end.

Definition orientation_of (given : option string) : Color :=
  if bool_decide (given = Some "black") then BLACK else WHITE.

Lemma argparse_choices_valid dflt choices given (w : World) :
  valid_choice choices given →
  argparse_choices dflt choices given w = (Ok (default dflt given), w).
Proof.
  unfold argparse_choices. destruct given as [s|]; [|done]. cbn.
  intros Hin. by rewrite bool_decide_true.
Qed.

Lemma argparse_choices_invalid dflt choices given (w : World) :
  ¬ valid_choice choices given →
  argparse_choices dflt choices given w = (Raise (SystemExit 2), w).
Proof.
  unfold argparse_choices. destruct given as [s|]; [|done]. cbn.
  intros Hin. by rewrite bool_decide_false.
Qed.

Lemma parse_bool_accepted given (w : World) :
  valid_choice bool_choices given →
  parse_bool (default "true" given) w = (Ok (flag_on given), w).
Proof.
  destruct given as [s|]; [|done]. unfold valid_choice, bool_choices.
  rewrite !elem_of_cons, elem_of_nil.
  intros [->|[->|[->|[->|[->|[->|[]]]]]]]; reflexivity.
Qed.

Lemma parse_orientation_accepted given (w : World) :
  valid_choice ["white"; "black"] given →
  parse_orientation (default "white" given) w = (Ok (orientation_of given), w).
Proof.
  destruct given as [s|]; [|done]. unfold valid_choice.
  rewrite !elem_of_cons, elem_of_nil. intros [->|[->|[]]]; reflexivity.
Qed.

#[local] Instance valid_choice_dec choices given :
  Decision (valid_choice choices given).
Proof. destruct given; cbn; apply _. Defined.

(** The rest of [main] in [pgn_to_gif/cli.py] once the arguments are
    parsed: the files are read and the pipeline is run. *)
Definition cli_run (argv : Argv) : M unit :=
  pgn ← read_pgn (arg_pgn_path argv);
  style ← match arg_css_path argv with
          | None => mret None
          | Some p => text ← read_css p; mret (Some text)
          end;
  pgn_to_gif pgn (Some (arg_gif_path argv))
    (flag_on (arg_add_initial_position argv))
    (flag_on (arg_highlight_last_move argv))
    (orientation_of (arg_orientation argv)) (arg_size argv)
    (flag_on (arg_coordinates argv)) style
    (arg_loop argv) (Some (arg_duration argv)) (Some (arg_fps argv))
    (arg_palettesize argv) (flag_on (arg_subrectangles argv));;
  mret tt.

Lemma bind_ok {A B} (m : M A) (f : A → M B) a w w1 :
  m w = (Ok a, w1) → (m ≫= f) w = f a w1.
Proof. unfold mbind, M_bind. by intros ->. Qed.

Lemma bind_raise {A B} (m : M A) (f : A → M B) e w w1 :
  m w = (Raise e, w1) → (m ≫= f) w = (Raise e, w1).
Proof. unfold mbind, M_bind. by intros ->. Qed.

Lemma bind_ext {A B} (m : M A) (f g : A → M B) w :
  (∀ a w1, f a w1 = g a w1) → (m ≫= f) w = (m ≫= g) w.
Proof.
  intros Hfg. unfold mbind, M_bind. destruct (m w) as [[a|e] w1]; [apply Hfg|done].
Qed.

Lemma cli_main_accepted argv w :
  valid_argv argv → cli_main argv w = cli_run argv w.
Proof.
  intros (Ha & Hh & Ho & Hc & Hs). unfold cli_main, cli_run.
  do 5 (erewrite bind_ok by (by apply argparse_choices_valid)).
  apply bind_ext. intros pgn w1. apply bind_ext. intros style w2.
  erewrite bind_ok by (by apply parse_orientation_accepted).
  do 4 (erewrite bind_ok by (by apply parse_bool_accepted)).
  reflexivity.
Qed.

Lemma cli_main_rejected argv w :
  ¬ valid_argv argv → cli_main argv w = (Raise (SystemExit 2), w).
Proof.
  intros Hbad. unfold cli_main.
  destruct (decide (valid_choice bool_choices (arg_add_initial_position argv)));
    [erewrite bind_ok by (by apply argparse_choices_valid)
    |by erewrite bind_raise by (by apply argparse_choices_invalid)].
  destruct (decide (valid_choice bool_choices (arg_highlight_last_move argv)));
    [erewrite bind_ok by (by apply argparse_choices_valid)
    |by erewrite bind_raise by (by apply argparse_choices_invalid)].
  destruct (decide (valid_choice ["white"; "black"] (arg_orientation argv)));
    [erewrite bind_ok by (by apply argparse_choices_valid)
    |by erewrite bind_raise by (by apply argparse_choices_invalid)].
  destruct (decide (valid_choice bool_choices (arg_coordinates argv)));
    [erewrite bind_ok by (by apply argparse_choices_valid)
    |by erewrite bind_raise by (by apply argparse_choices_invalid)].
  destruct (decide (valid_choice bool_choices (arg_subrectangles argv)));
    [|by erewrite bind_raise by (by apply argparse_choices_invalid)].
  by destruct Hbad.
Qed.


(** X17. [pgn_to_gif/cli.py] checks its arguments before anything else: a
    value that is not among the choices of its argument, for any of the four
    boolean flags or for the orientation, ends the run with status 2 and
    the world untouched; no file has been read. *)
Theorem arguments_checked_before_any_file (argv : Argv) (w : World) :
  ¬ valid_argv argv →
  cli_main argv w = (Raise (SystemExit 2), w) ∧
  exit_status (cli_main argv w).1 = 2%Z.
Proof.
  intros Hbad. rewrite (cli_main_rejected _ _ Hbad). done.
Qed.

(** X18. With accepted arguments [main] of [pgn_to_gif/cli.py] reads the
    PGN file, then the stylesheet if one is given, and runs [pgn_to_gif]
    on the destination with each flag true exactly when it is absent or
    one of [1], [t], [true], the orientation black exactly for [black], and
    both the duration and the frame rate given.  The errors of
    [parse_bool] and [parse_orientation] cannot occur. *)
Theorem cli_main_reads_then_runs (argv : Argv) (w : World) :
  valid_argv argv →
  cli_main argv w
  = (pgn ← read_pgn (arg_pgn_path argv);
     style ← match arg_css_path argv with
             | None => mret None
             | Some p => text ← read_css p; mret (Some text)
             end;
     pgn_to_gif pgn (Some (arg_gif_path argv))
       (flag_on (arg_add_initial_position argv))
       (flag_on (arg_highlight_last_move argv))
       (orientation_of (arg_orientation argv)) (arg_size argv)
       (flag_on (arg_coordinates argv)) style
       (arg_loop argv) (Some (arg_duration argv)) (Some (arg_fps argv))
       (arg_palettesize argv) (flag_on (arg_subrectangles argv));;
     mret tt) w.
Proof. apply cli_main_accepted. Qed.

Lemma open_read_missing p (w : World) :
  node_at (fs w) p = None →
  open_read p w = (Raise FileNotFoundError, add_trace [EvReadFile p] w).
Proof.
  intros Hnone. unfold open_read, log, modify, get, raise, mbind, M_bind.
  cbn. by rewrite Hnone.
Qed.

Lemma open_read_file p text (w : World) :
  node_at (fs w) p = Some (File text) →
  open_read p w = (Ok text, add_trace [EvReadFile p] w).
Proof.
  intros Hfile. unfold open_read, log, modify, get, raise, mbind, M_bind.
  cbn. by rewrite Hfile.
Qed.

(** X19. With accepted arguments, a PGN file that is not there, or a
    stylesheet that is not there, ends [main] of [pgn_to_gif/cli.py] with
    [FileNotFoundError] and status 1 before any rendering: all the run has
    done is to try to read, no temporary file is made and nothing is
    written. *)
Theorem missing_file_before_any_rendering (argv : Argv) (w : World) :
  valid_argv argv →
  (node_at (fs w) (arg_pgn_path argv) = None →
   cli_main argv w
   = (Raise FileNotFoundError, add_trace [EvReadFile (arg_pgn_path argv)] w)) ∧
  (∀ text css,
     node_at (fs w) (arg_pgn_path argv) = Some (File text) →
     arg_css_path argv = Some css →
     node_at (fs w) css = None →
     cli_main argv w
     = (Raise FileNotFoundError,
        add_trace [EvReadFile (arg_pgn_path argv); EvReadFile css] w)).
Proof.
  intros Hvalid. rewrite (cli_main_accepted _ _ Hvalid). unfold cli_run.
  split.
  - intros Hnone. by erewrite bind_raise by (by apply open_read_missing).
  - intros text css Hpgn -> Hcss.
    erewrite bind_ok by (by apply open_read_file).
    erewrite bind_raise;
      [|erewrite bind_raise; [reflexivity|by apply open_read_missing]].
    by rewrite add_trace_add_trace.
Qed.

End Further.

(** * The claims on concrete runs *)

Import Ref.

(** One frame per second, the default of [game_to_gif]. *)
Definition fps1 : option (@float rules libraries) := Some 1%Z.

(** The two-move game, rendered with the defaults and returned. *)
Lemma frame_count_witness :
  length (appended (events_since empty_world
    (game_to_gif (Some e4_e5) None true true WHITE 400 true None 0 None fps1
       16 true empty_world).2)) = 3%nat.
Proof.
  apply (proj2 (frame_count e4_e5 true) None true WHITE 400%Z true None 0%Z
           None fps1 16%Z true empty_world (Some 0%nat)).
  vm_compute. reflexivity.
Defined.

(** Highlighting off on the two-move game: no call gets a last move. *)
Lemma highlight_override_witness :
  Forall (λ lm, lm = None)
    (render_last_moves (events_since empty_world
       (game_to_gif (Some e4_e5) None true false WHITE 400 true None 0 None
          fps1 16 true empty_world).2)).
Proof.
  refine (proj1 (highlight_override e4_e5 None true false WHITE 400%Z true
                   None 0%Z None fps1 16%Z true
                   [([], None); (["e4"], Some "e4"); (["e4"; "e5"], Some "e5")]
                   empty_world empty_world (Ok (Some 0%nat)) _ _ _) eq_refl);
    vm_compute; reflexivity.
Defined.

(** C5 as stated fails.  With size 0 the two-move game does fail with the
    assertion of the renderer, but after the temporary file has been made
    and the writer opened on it; and a game without moves, rendered without
    the initial position at size -5, does not fail at all. *)
Lemma size_rejected_after_temporary_file :
  let run := game_to_gif (Some e4_e5) None true true WHITE 0 true None 0 None
               fps1 16 true empty_world in
  let idle := game_to_gif (Some no_moves) None false true WHITE (-5) true None
                0 None fps1 16 true empty_world in
  run.1 = Raise (AssertionError "size of the board must be positive integer") ∧
  take 2 (trace run.2) =
    [EvTemporaryFile 0; EvGetWriter 0 (options 0 None fps1 16 true)] ∧
  temps run.2 = [written "GIF;"] ∧
  idle.1 = Ok (Some 0%nat).
Proof. vm_compute. repeat split; reflexivity. Qed.

Lemma size_checked_on_first_frame_witness :
  ∃ w' board last_move,
    game_to_gif (Some e4_e5) None true true WHITE 0 true None 0 None fps1 16
      true empty_world
    = (Raise (AssertionError "size of the board must be positive integer"), w') ∧
    events_since empty_world w' =
      [EvTemporaryFile 0; EvGetWriter 0 (options 0 None fps1 16 true);
       EvBoardToSvg board WHITE last_move 0 true None; EvWriterClose 0] ∧
    temps w' = [written "GIF;"] ∧
    fs w' = fs empty_world.
Proof.
  refine (proj1 (size_checked_on_first_frame e4_e5 None true true WHITE 0%Z
                   true None 0%Z None fps1 16%Z true empty_world _) _ _ _).
  - discriminate.
  - left. reflexivity.
  - intros [_ Hfps]. discriminate Hfps.
  - reflexivity.
Defined.



(** A working directory that holds [game.pgn] with the given text. *)
Definition with_pgn (text : string) : World :=
  {| fs := {[ ["game.pgn"] := File text ]}; temps := []; writers := [];
     trace := [] |}.

Definition garbage_argv : Argv :=
  {| arg_pgn_path := ["game.pgn"]; arg_gif_path := ["out.gif"];
     arg_add_initial_position := None; arg_highlight_last_move := None;
     arg_orientation := None; arg_size := 400; arg_coordinates := None;
     arg_css_path := None; arg_loop := 0; arg_duration := 1%Z;
     arg_fps := 1%Z; arg_palettesize := 64; arg_subrectangles := None |}.

(** C7 as stated fails.  Text that is no PGN at all: the parsing stage
    returns a game without moves and raises nothing, and the command line
    tool ends with status 0, the one-frame GIF written at the destination. *)
Lemma garbage_is_rendered :
  let run := cli_main garbage_argv (with_pgn "garbage") in
  pgn_to_game "garbage" empty_world = (Ok (Some no_moves), empty_world) ∧
  run.1 = Ok tt ∧
  exit_status run.1 = 0%Z ∧
  fs run.2 !! ["out.gif"] = Some (File "GIFF;").
Proof. vm_compute. repeat split; reflexivity. Qed.

Lemma no_game_fails_late_witness :
  ∃ e w',
    pgn_to_gif "" (Some ["out.gif"]) true true WHITE 400 true None 0 None fps1
      16 true empty_world = (Raise e, w') ∧
    fs w' = fs empty_world.
Proof.
  refine (proj2 (no_game_fails_late "" (Some ["out.gif"]) true true WHITE 400%Z
                   true None 0%Z None fps1 16%Z true empty_world) _).
  reflexivity.
Defined.

(** A working directory with a directory [out], and one open temporary
    file holding a GIF. *)
Definition with_out_dir : World :=
  {| fs := {[ ["out"] := Dir ]}; temps := [written "GIF;"]; writers := [];
     trace := [] |}.

(** C8 as stated fails.  The destination is a directory: opening it
    raises, and the temporary file is left open. *)
Lemma temporary_file_left_open_on_failure :
  let run := save_gif_temp_file 0 ["out"] with_out_dir in
  run.1 = Raise IsADirectoryError ∧
  temps run.2 = [{| content := "GIF;"; position := 0; closed := false |}].
Proof. vm_compute. split; reflexivity. Qed.

Lemma output_writer_witness :
  is_dir (fs (save_gif_temp_file 0 ["out"; "new"; "a.gif"] with_out_dir).2)
    ["out"; "new"] = true ∧
  fs (save_gif_temp_file 0 ["out"; "new"; "a.gif"] with_out_dir).2
    !! ["out"; "new"; "a.gif"] = Some (File "GIF;") ∧
  ∃ t', temps (save_gif_temp_file 0 ["out"; "new"; "a.gif"] with_out_dir).2
          !! 0%nat = Some t' ∧ closed t' = true.
Proof.
  refine (output_writer 0 ["out"; "new"; "a.gif"] (written "GIF;") with_out_dir
            (Ok tt) _ _ _ _); vm_compute; reflexivity.
Defined.

(** C9 as stated fails.  [TRUE] lowercases to a token of the allow-list,
    and its flag is not true: the argument parser of [pgn_to_gif/cli.py]
    ends with status 2 before [parse_bool] is reached. *)
Lemma uppercase_token_rejected :
  lower "TRUE" ∈ true_values ∧
  parse_bool "TRUE" empty_world = (Ok true, empty_world) ∧
  cli_flag (Some "TRUE") empty_world = (Raise (SystemExit 2), empty_world).
Proof. split; [|split]; [|reflexivity..]. vm_compute. set_solver. Qed.

Lemma boolean_flags_witness :
  cli_flag (Some "t") empty_world = (Ok true, empty_world).
Proof.
  apply (proj2 (proj1 (proj1 (proj2 (boolean_flags "t" empty_world))))).
  set_solver.
Defined.

Lemma artifact_returned_or_saved_witness :
  let run := game_to_gif (Some e4_e5) (Some ["out"; "a.gif"]) true true WHITE
               400 true None 0 None fps1 16 true empty_world in
  ∃ t, temps run.2 !! 0%nat = Some t ∧
       writer_close (options 0 None fps1 16 true)
         (appended (events_since empty_world run.2)) = Ok (content t) ∧
       run.1 = Ok None ∧ closed t = true ∧
       fs run.2 !! ["out"; "a.gif"] = Some (File (content t)).
Proof.
  destruct (proj1 (artifact_returned_or_saved (Some ["out"; "a.gif"]) true true
                     WHITE 400%Z true None 0%Z None fps1 16%Z true empty_world)
              (Some e4_e5) None
              (game_to_gif (Some e4_e5) (Some ["out"; "a.gif"]) true true WHITE
                 400 true None 0 None fps1 16 true empty_world).2)
    as (t & Ht & Hclose & _ & Hclosed & Hfile).
  - vm_compute. reflexivity.
  - exists t. repeat split; assumption || reflexivity.
Defined.

(** * The further properties on concrete runs *)

Lemma output_writer_keeps_the_rest_witness :
  let w' := (save_gif_temp_file 0 ["out"; "new"; "a.gif"] with_out_dir).2 in
  fs w' !! ["out"] = fs with_out_dir !! ["out"] ∨
  (fs with_out_dir !! ["out"] = None ∧ fs w' !! ["out"] = Some Dir ∧
   ["out"] `prefix_of` ["out"; "new"; "a.gif"]).
Proof.
  refine (output_writer_keeps_the_rest 0 ["out"; "new"; "a.gif"]
            (written "GIF;") with_out_dir (Ok tt) _ _ _ ["out"] _).
  - reflexivity.
  - vm_compute. reflexivity.
  - discriminate.
Defined.

(** A directory [out] that already holds [a.gif], and an open temporary
    file. *)
Definition with_old_gif : World :=
  {| fs := <[ ["out"; "a.gif"] := File "old" ]> {[ ["out"] := Dir ]};
     temps := [written "GIF;"]; writers := []; trace := [] |}.

Lemma output_writer_replaces_witness :
  ∃ w', save_gif_temp_file 0 ["out"; "a.gif"] with_old_gif = (Ok tt, w') ∧
        fs w' = <[ ["out"; "a.gif"] := File "GIF;" ]> (fs with_old_gif) ∧
        temps w' = <[ 0%nat := released (written "GIF;") ]> (temps with_old_gif).
Proof.
  apply (output_writer_replaces 0 ["out"; "a.gif"] (written "GIF;") with_old_gif).
  - reflexivity.
  - reflexivity.
  - vm_compute. reflexivity.
  - vm_compute. discriminate.
Defined.

(** The same, the temporary file closed. *)
Definition with_closed_file : World :=
  {| fs := {[ ["out"] := Dir ]}; temps := [released (written "GIF;")];
     writers := []; trace := [] |}.

Lemma output_writer_needs_an_open_file_witness :
  let run := save_gif_temp_file 0 ["out"; "a.gif"] with_closed_file in
  is_ok run.1 = false ∧
  fs run.2 !! ["out"; "a.gif"] = fs with_closed_file !! ["out"; "a.gif"] ∧
  temps run.2 = temps with_closed_file.
Proof.
  refine (output_writer_needs_an_open_file 0 ["out"; "a.gif"]
            (released (written "GIF;")) with_closed_file _ _ _ _ _).
  - reflexivity.
  - reflexivity.
  - vm_compute. reflexivity.
Defined.

Lemma earlier_temporary_files_untouched_witness :
  take 1 (temps (game_to_gif (Some e4_e5) (Some ["out"; "a.gif"]) true true
                   WHITE 400 true None 0 None fps1 16 true with_out_dir).2)
  = [written "GIF;"].
Proof.
  refine (earlier_temporary_files_untouched (Some e4_e5) (Some ["out"; "a.gif"])
            true true WHITE 400%Z true None 0%Z None fps1 16%Z true
            with_out_dir (Ok None) _ _).
  vm_compute. reflexivity.
Defined.

Lemma temporary_file_leaked_on_failure_witness :
  ∃ t, temps (game_to_gif (Some e4_e5) (Some ["out.gif"]) true true WHITE 0
                true None 0 None fps1 16 true empty_world).2 !! 0%nat = Some t ∧
       closed t = false.
Proof.
  refine (temporary_file_leaked_on_failure (Some e4_e5) (Some ["out.gif"]) true
            true WHITE 0%Z true None 0%Z None fps1 16%Z true empty_world
            (AssertionError "size of the board must be positive integer")
            _ _ _).
  - intros [_ Hfps]. discriminate Hfps.
  - vm_compute. reflexivity.
Defined.

Lemma nothing_written_without_a_path_witness :
  fs (game_to_gif (Some e4_e5) None true true WHITE 400 true None 0 None fps1
        16 true with_out_dir).2 = fs with_out_dir.
Proof.
  refine (nothing_written_without_a_path (Some e4_e5) true true WHITE 400%Z
            true None 0%Z None fps1 16%Z true with_out_dir (Ok (Some 1%nat))
            _ _).
  vm_compute. reflexivity.
Defined.

Lemma no_output_before_the_last_frame_witness :
  ∃ g, Some e4_e5 = Some g ∧
       length (appended (events_since empty_world
         (game_to_gif (Some e4_e5) (Some ["out.gif"]) true true WHITE 400 true
            None 0 None fps1 16 true empty_world).2))
       = (length (mainline_moves g) + 1)%nat.
Proof.
  refine (no_output_before_the_last_frame (Some e4_e5) true true WHITE 400%Z
            true None 0%Z None fps1 16%Z true ["out.gif"] empty_world
            (Ok None) _ _ _).
  - vm_compute. reflexivity.
  - intros Hsame. apply (f_equal (λ f, f !! ["out.gif"])) in Hsame.
    vm_compute in Hsame. discriminate Hsame.
Defined.

Lemma writer_always_left_witness :
  ∃ before after,
    events_since empty_world
      (game_to_gif (Some e4_e5) None true true WHITE 0 true None 0 None fps1
         16 true empty_world).2
    = before ++ [EvWriterClose 0] ++ after ∧
    appended after = [].
Proof.
  refine (writer_always_left (Some e4_e5) None true true WHITE 0%Z true None
            0%Z None fps1 16%Z true empty_world
            (Raise (AssertionError "size of the board must be positive integer"))
            _ _ _ _).
  - intros [_ Hfps]. discriminate Hfps.
  - reflexivity.
  - vm_compute. reflexivity.
Defined.

Definition e4_e5_positions : list (list string * option string) :=
  [([], None); (["e4"], Some "e4"); (["e4"; "e5"], Some "e5")].

Lemma frames_are_the_rendered_positions_witness :
  Forall2
    (λ (item : list string * option string) (im : Rendering), ∃ png,
       (400 > 0)%Z ∧
       svg2png (chess_svg_board item.1 WHITE item.2 400 true None) = Ok png ∧
       imread png = Ok im)
    e4_e5_positions
    (appended (events_since empty_world
       (game_to_gif (Some e4_e5) None true true WHITE 400 true None 0 None
          fps1 16 true empty_world).2)).
Proof.
  refine (frames_are_the_rendered_positions (Some e4_e5) None true true WHITE
            400%Z true None 0%Z None fps1 16%Z true e4_e5_positions
            empty_world empty_world (Some 0%nat) _ _ _);
    vm_compute; reflexivity.
Defined.

Lemma one_frame_at_a_time_witness :
  ∃ rendered : list (Rendering * Rendering),
    length rendered = 3%nat ∧
    events_since empty_world
      (game_to_gif (Some e4_e5) None true true WHITE 400 true None 0 None fps1
         16 true empty_world).2
    = [EvTemporaryFile 0; EvGetWriter 0 (options 0 None fps1 16 true)] ++
      concat (zip_with (frame_calls true WHITE 400 true None)
                e4_e5_positions rendered) ++
      [EvWriterClose 0].
Proof.
  refine (one_frame_at_a_time (Some e4_e5) true true WHITE 400%Z true None 0%Z
            None fps1 16%Z true e4_e5_positions empty_world empty_world
            (Some 0%nat) _ _ _);
    vm_compute; reflexivity.
Defined.

(** The two-move game with side variations at both moves. *)
Definition e4_e5_annotated : Game :=
  {| game_board := [];
     game_variations :=
       [mkChild "e4" [mkChild "e5" []; mkChild "c5" [mkChild "f3" []]];
        mkChild "d4" []] |}.

Lemma only_the_mainline_matters_witness :
  gen_to_list (game_to_boards_and_last_moves (Some e4_e5) true) empty_world
    = gen_to_list (game_to_boards_and_last_moves (Some e4_e5_annotated) true)
        empty_world ∧
  game_to_gif (Some e4_e5) None true true WHITE 400 true None 0 None fps1 16
    true empty_world
  = game_to_gif (Some e4_e5_annotated) None true true WHITE 400 true None 0
      None fps1 16 true empty_world.
Proof.
  apply (only_the_mainline_matters e4_e5 e4_e5_annotated None true true WHITE
           400%Z true None 0%Z None fps1 16%Z true empty_world);
    reflexivity.
Defined.

Definition initial_rendering : Rendering :=
  {| r_board := []; r_orientation := WHITE; r_last_move := None; r_size := 400 |}.

Lemma no_game_noticed_after_the_first_frame_witness :
  ∃ w',
    pgn_to_gif "" (Some ["out.gif"]) true true WHITE 400 true None 0 None fps1
      16 true empty_world
    = (Raise (AttributeError "'NoneType' object has no attribute 'mainline_moves'"),
       w') ∧
    appended (events_since empty_world w') = [initial_rendering] ∧
    temps w' = temps empty_world ++ [written "GIFF;"] ∧
    fs w' = fs empty_world.
Proof.
  apply (no_game_noticed_after_the_first_frame "" (Some ["out.gif"]) true WHITE
           400%Z true None 0%Z None fps1 16%Z true empty_world
           initial_rendering initial_rendering "GIFF;").
  - reflexivity.
  - reflexivity.
  - reflexivity.
  - reflexivity.
  - intros [_ Hfps]. discriminate Hfps.
  - reflexivity.
  - reflexivity.
Defined.

Definition after_e4 : Rendering :=
  {| r_board := ["e4"]; r_orientation := WHITE; r_last_move := Some "e4";
     r_size := 400 |}.

Definition two_rasters : list (@Png rules libraries) :=
  [initial_rendering; after_e4].

Lemma encoder_on_a_list_witness :
  ∃ w',
    pngs_to_gif (mret <$> two_rasters) 0 None fps1 16 true empty_world
      = (Ok 0%nat, w') ∧
    temps w' = temps empty_world ++ [written "GIFFF;"] ∧
    fs w' = fs empty_world ∧
    appended (events_since empty_world w') = two_rasters ∧
    decoded (events_since empty_world w') = two_rasters.
Proof.
  apply (@encoder_on_a_list rules libraries two_rasters two_rasters 0%Z None
           fps1 16%Z true empty_world "GIFFF;").
  - intros [_ Hfps]. discriminate Hfps.
  - reflexivity.
  - repeat constructor.
  - reflexivity.
Defined.

(** The same libraries with a decoder that refuses a raster without a
    size. *)
Definition picky : Libraries := {|
  float := Z;
  Svg := Rendering;
  Png := Rendering;
  Image := Rendering;
  read_game := parse;
  chess_svg_board b o lm sz _ _ :=
    {| r_board := b; r_orientation := o; r_last_move := lm; r_size := sz |};
  svg2png svg := Ok svg;
  imread png :=
    if bool_decide (r_size png > 0)%Z then Ok png
    else Raise (LibraryError "cannot identify image file");
  writer_open _ := Ok tt;
  writer_close _ fs := Ok (encode fs);
|}.

Definition no_raster : Rendering :=
  {| r_board := []; r_orientation := WHITE; r_last_move := None; r_size := 0 |}.

Definition good_raster : list (@Png rules picky) := [initial_rendering].
Definition last_raster : list (@Png rules picky) := [after_e4].

Lemma encoder_stops_at_the_first_bad_raster_witness :
  ∃ w' t,
    @pngs_to_gif rules picky (mret <$> (good_raster ++ no_raster :: last_raster))
      0 None (Some 1%Z) 16 true (@empty_world rules picky)
    = (Raise (LibraryError "cannot identify image file"), w') ∧
    temps w' = temps (@empty_world rules picky) ++ [t] ∧ closed t = false ∧
    (∀ data, Ok (encode good_raster) = Ok data → content t = data) ∧
    appended (events_since (@empty_world rules picky) w') = good_raster ∧
    decoded (events_since (@empty_world rules picky) w')
      = good_raster ++ [no_raster].
Proof.
  apply (@encoder_stops_at_the_first_bad_raster rules picky
           good_raster good_raster no_raster last_raster
           (LibraryError "cannot identify image file") 0%Z None (Some 1%Z)
           16%Z true (@empty_world rules picky)).
  - intros [_ Hfps]. discriminate Hfps.
  - reflexivity.
  - repeat constructor.
  - reflexivity.
Defined.

Lemma orientation_names_witness :
  ∃ msg, parse_orientation "White" empty_world
         = (Raise (ValueError msg), empty_world).
Proof.
  apply (proj2 (proj2 (orientation_names "White" empty_world))); discriminate.
Defined.

(** The command line of [garbage_argv] with the orientation in capitals. *)
Definition capital_argv : Argv :=
  {| arg_pgn_path := ["game.pgn"]; arg_gif_path := ["out.gif"];
     arg_add_initial_position := None; arg_highlight_last_move := None;
     arg_orientation := Some "WHITE"; arg_size := 400;
     arg_coordinates := None; arg_css_path := None; arg_loop := 0;
     arg_duration := 1%Z; arg_fps := 1%Z; arg_palettesize := 64;
     arg_subrectangles := None |}.

Lemma arguments_checked_before_any_file_witness :
  cli_main capital_argv (with_pgn "1. e4 e5")
    = (Raise (SystemExit 2), with_pgn "1. e4 e5") ∧
  exit_status (cli_main capital_argv (with_pgn "1. e4 e5")).1 = 2%Z.
Proof.
  apply (arguments_checked_before_any_file capital_argv (with_pgn "1. e4 e5")).
  intros (_ & _ & Ho & _). cbn in Ho.
  rewrite !elem_of_cons, elem_of_nil in Ho.
  destruct Ho as [Ho|[Ho|[]]]; discriminate Ho.
Defined.

Lemma cli_main_reads_then_runs_witness :
  cli_main garbage_argv (with_pgn "1. e4 e5")
  = (pgn ← read_pgn ["game.pgn"];
     style ← mret None;
     pgn_to_gif pgn (Some ["out.gif"]) true true WHITE 400 true style 0
       (Some 1%Z) (Some 1%Z) 64 true;;
     mret tt) (with_pgn "1. e4 e5").
Proof.
  apply (cli_main_reads_then_runs garbage_argv (with_pgn "1. e4 e5")).
  repeat split.
Defined.

Lemma missing_file_before_any_rendering_witness :
  cli_main garbage_argv empty_world
  = (Raise FileNotFoundError, add_trace [EvReadFile ["game.pgn"]] empty_world).
Proof.
  apply (proj1 (missing_file_before_any_rendering garbage_argv empty_world
                  (conj I (conj I (conj I (conj I I)))))).
  reflexivity.
Defined.

